(** * Trace analysis scripts: checksum provenance and flush bursts

    A shallow embedding of [analyze_checksums.py] and [find_bursts.py].

    - Python [int] is [Z]; timestamps parsed by [int(...)] from [\d+] are
      non-negative, but nothing below depends on that.
    - Python [float] is an IEEE 754 binary64 number: Rocq's primitive [float],
      whose operations are the hardware ones.
    - Resource handles and checksum tokens are the matched text: [string].
    - A [dict] is an association list in insertion order, with the update
      rule of Python dicts (an existing key keeps its position). *)

From Stdlib Require Import ZArith List Bool Lia Floats Sorted Permutation.
From Stdlib Require String.
Import ListNotations String.StringSyntax.

Abbreviation string := String.string.

#[local] Set Warnings "-inexact-float".

(** ** Python dictionaries, insertion ordered *)

Module Dict.
Section WithValue.
Context {V : Type}.

Definition t := list (string * V).

(** [d.get(k)]: [None] when [k not in d]. *)
Fixpoint get (d : t) (k : string) : option V :=
  match d with
  | [] => None
  | (k', v) :: d' => if String.eqb k' k then Some v else get d' k
  end.

(** [d[k] = v]: overwrite in place, or append a new key at the end. *)
Fixpoint set (d : t) (k : string) (v : V) : t :=
  match d with
  | [] => [(k, v)]
  | (k', v') :: d' =>
      if String.eqb k' k then (k', v) :: d' else (k', v') :: set d' k v
  end.

Definition keys (d : t) : list string := map fst d.

(** [k in d] *)
Definition mem (d : t) (k : string) : bool :=
  match get d k with Some _ => true | None => false end.
End WithValue.
Arguments t : clear implicits.
End Dict.

(** ** analyze_checksums.py *)

Module AnalyzeChecksums.
Open Scope string_scope.
Open Scope list_scope.
Open Scope Z_scope.

(** [writes[resource] = (int(timestamp), checksum)] *)
Definition write_entry : Type := Z * string.
(** [reads.append((int(timestamp), resource, checksum))] *)
Definition read_event : Type := Z * string * string.
(** [copies.append((int(timestamp), src, dst))] *)
Definition copy_event : Type := Z * string * string.

(** The three [re.search] calls of the parsing loop are the external line
    matcher.  A line is represented by what they return: the groups of each
    pattern that matched (already converted by [int]), the three searches
    being independent of one another. *)
Record trace_line := {
  is_comment : bool;                           (* line.startswith('#') *)
  unmap_match : option (Z * string * string);  (* timestamp, resource, checksum *)
  read_match : option (Z * string * string);   (* timestamp, resource, checksum *)
  copy_match : option (Z * string * string)    (* timestamp, src, dst *)
}.

Record trace_state := {
  writes : Dict.t write_entry;
  reads : list read_event;
  copies : list copy_event
}.

Definition empty_trace : trace_state :=
  {| writes := []; reads := []; copies := [] |}.

(** Body of [for line in f] (lines 12-31). *)
Definition parse_line (st : trace_state) (line : trace_line) : trace_state :=
  if is_comment line then st
  else
    let st1 :=
      match unmap_match line with
      | Some (timestamp, resource, checksum) =>
          {| writes := Dict.set (writes st) resource (timestamp, checksum);
             reads := reads st; copies := copies st |}
      | None => st
      end in
    let st2 :=
      match read_match line with
      | Some (timestamp, resource, checksum) =>
          {| writes := writes st1;
             reads := reads st1 ++ [(timestamp, resource, checksum)];
             copies := copies st1 |}
      | None => st1
      end in
    match copy_match line with
    | Some (timestamp, src, dst) =>
        {| writes := writes st2; reads := reads st2;
           copies := copies st2 ++ [(timestamp, src, dst)] |}
    | None => st2
    end.

Definition parse_trace (lines : list trace_line) : trace_state :=
  fold_left parse_line lines empty_trace.

(** The copies a run of lines appends to [copies]. *)
Definition logged_copies (lines : list trace_line) : list copy_event :=
  flat_map (fun line =>
              if is_comment line then []
              else match copy_match line with
                   | Some c => [c]
                   | None => []
                   end) lines.

(** One iteration of the inner loop [for copy_time, src, dst in copies]
    (lines 46-49), threading [recent_copy]. *)
Definition recent_copy_step (read_time : Z) (read_res : string)
    (recent_copy : option copy_event) (c : copy_event) : option copy_event :=
  let '(copy_time, src, dst) := c in
  if (copy_time <? read_time) && String.eqb dst read_res then
    match recent_copy with
    | None => Some (copy_time, src, dst)
    | Some (recent_time, _, _) =>
        if copy_time >? recent_time then Some (copy_time, src, dst)
        else recent_copy
    end
  else recent_copy.

(** Lines 45-49: [recent_copy = None] followed by the inner loop. *)
Definition find_recent_copy (copies : list copy_event)
    (read_time : Z) (read_res : string) : option copy_event :=
  fold_left (recent_copy_step read_time read_res) copies None.

(** The two lines the verification loop can print. *)
Inductive report_line :=
| MATCH (src_res read_res write_checksum : string)
| MISMATCH (src_res write_checksum read_res read_checksum : string).

Record tally := {
  matches : Z;
  mismatches : Z;
  printed : list report_line
}.

Definition tally0 : tally := {| matches := 0; mismatches := 0; printed := [] |}.

(** Body of [for read_time, read_res, read_checksum in reads] (lines 43-61). *)
Definition verify_read (writes : Dict.t write_entry) (copies : list copy_event)
    (acc : tally) (r : read_event) : tally :=
  let '(read_time, read_res, read_checksum) := r in
  match find_recent_copy copies read_time read_res with
  | Some (_, src_res, _) =>
      match Dict.get writes src_res with
      | Some (write_time, write_checksum) =>
          if String.eqb write_checksum read_checksum then
            {| matches := matches acc + 1;
               mismatches := mismatches acc;
               printed := printed acc ++ [MATCH src_res read_res write_checksum] |}
          else
            {| matches := matches acc;
               mismatches := mismatches acc + 1;
               printed := printed acc ++
                 [MISMATCH src_res write_checksum read_res read_checksum] |}
      | None => acc
      end
  | None => acc
  end.

Definition verify_reads (st : trace_state) : tally :=
  fold_left (verify_read (writes st) (copies st)) (reads st) tally0.

(** The three classes of the specification, read off the branch taken. *)
Inductive classification := Match | Mismatch | Unclassified.

(** The class of a read is what its iteration printed. *)
Definition classification_of (before after : tally) : classification :=
  match skipn (length (printed before)) (printed after) with
  | MATCH _ _ _ :: _ => Match
  | MISMATCH _ _ _ _ :: _ => Mismatch
  | [] => Unclassified
  end.

(** A read has no resolvable chain when there is no qualifying copy or the
    copy's source has no recorded write. *)
Definition unresolved (writes : Dict.t write_entry) (copies : list copy_event)
    (r : read_event) : bool :=
  let '(read_time, read_res, _) := r in
  match find_recent_copy copies read_time read_res with
  | Some (_, src_res, _) => negb (Dict.mem writes src_res)
  | None => true
  end.

(** A copy qualifies for a read when it targets the read's resource strictly
    before the read. *)
Definition qualifies (read_time : Z) (read_res : string) (c : copy_event) : Prop :=
  let '(copy_time, _, dst) := c in copy_time < read_time /\ dst = read_res.

Definition copy_time (c : copy_event) : Z := fst (fst c).

(** What [recent_copy] satisfies once the copies in [seen] have been
    visited. *)
Definition latest_among (read_time : Z) (read_res : string)
    (seen : list copy_event) (recent_copy : option copy_event) : Prop :=
  match recent_copy with
  | Some c =>
      In c seen /\ qualifies read_time read_res c /\
      forall c', In c' seen -> qualifies read_time read_res c' ->
                 copy_time c' <= copy_time c
  | None => forall c', In c' seen -> ~ qualifies read_time read_res c'
  end.

(** Lines 71-73: [checksum_counts[checksum] += 1] on a [defaultdict(int)]. *)
Definition count_checksum (checksum_counts : Dict.t Z) (r : read_event) : Dict.t Z :=
  let '(_, _, checksum) := r in
  let old := match Dict.get checksum_counts checksum with
             | Some n => n | None => 0 end in
  Dict.set checksum_counts checksum (old + 1).

Definition checksum_counts (reads : list read_event) : Dict.t Z :=
  fold_left count_checksum reads [].

(** [sorted(items, key=...)] is a stable sort; a stable sort has one possible
    result, given here by insertion from the right: an item goes before the
    first item whose key is not smaller than its own. *)
Fixpoint insert_by_key {A : Type} (key : A -> Z) (x : A) (l : list A) : list A :=
  match l with
  | [] => [x]
  | y :: l' =>
      if key x <=? key y then x :: y :: l' else y :: insert_by_key key x l'
  end.

Fixpoint sorted_by_key {A : Type} (key : A -> Z) (l : list A) : list A :=
  match l with
  | [] => []
  | x :: l' => insert_by_key key x (sorted_by_key key l')
  end.

(** The order a stable sort by [key] leaves a list in, when the list came in
    the order [P]: smaller key first, equal keys in the order [P]. *)
Definition key_then {A : Type} (key : A -> Z) (P : A -> A -> Prop)
    (a b : A) : Prop :=
  key a < key b \/ (key a = key b /\ P a b).

(** Line 78: [sorted(checksum_counts.items(), key=lambda x: -x[1])[:10]]. *)
Definition top10 (reads : list read_event) : list (string * Z) :=
  firstn 10 (sorted_by_key (fun x => - snd x) (checksum_counts reads)).

(** Lines 86-89. Every index used lies in [range(1, len(reads))], so the
    default of [nth] is never returned. *)
Definition read_time_at (reads : list read_event) (i : nat) : Z :=
  fst (fst (nth i reads (0, String.EmptyString, String.EmptyString))).

Definition read_intervals (reads : list read_event) : list Z :=
  map (fun i => read_time_at reads i - read_time_at reads (i - 1))
      (seq 1 (length reads - 1)).

(** [sum], [min] and [max] of a list of integers. *)
Definition sum (l : list Z) : Z := fold_left Z.add l 0.
Definition min_of (x : Z) (l : list Z) : Z := fold_left Z.min l x.
Definition max_of (x : Z) (l : list Z) : Z := fold_left Z.max l x.

(** Python's [a / b] on two [int]s, for a positive [b] (line 92 divides by a
    length that is not 0): the quotient rounded to the nearest double, ties
    to even, and [OverflowError] ([None] here) when that is beyond the
    doubles.  [x] holds the leading bits of the quotient, at least 55 of
    them unless the result is subnormal, and [inexact] tells whether bits
    were lost below; [binary_normalize] then rounds once. *)
Definition true_divide (a : Z) (b : positive) : option float :=
  let n := Z.abs a in
  let d := Z.pos b in
  if n =? 0 then Some 0%float else
  let diff := Z.log2 n - Z.log2 d in
  let shift := Z.max diff (-1021) - 55 in
  let num := n * 2 ^ Z.max 0 (- shift) in
  let den := d * 2 ^ Z.max 0 shift in
  let x := num / den in
  let inexact := if num mod den =? 0 then 0 else 1 in
  let m := 2 * x + inexact in
  match binary_normalize prec emax (if a <? 0 then - m else m) (shift - 1)
                         (a <? 0) with
  | S754_infinity _ => None
  | sf => Some (SF2Prim sf)
  end.

(** What the timing section prints: the average is a [float], the minimum
    and the maximum are [int]s. *)
Record timing := {
  avg_interval : float;
  min_interval : Z;
  max_interval : Z
}.

(** How the timing section ends: with nothing printed, with the
    [OverflowError] of line 92, raised before anything is printed, or with
    the three lines printed. *)
Inductive timing_outcome :=
| NoStatistics
| OverflowError
| Statistics (s : timing).

(** Lines 91-95: nothing is printed when [read_intervals] is empty. *)
Definition timing_analysis (reads : list read_event) : timing_outcome :=
  match read_intervals reads with
  | [] => NoStatistics
  | x :: rest =>
      match true_divide (sum (x :: rest)) (Pos.of_nat (length (x :: rest))) with
      | None => OverflowError
      | Some avg =>
          Statistics {| avg_interval := avg;
                        min_interval := min_of x rest;
                        max_interval := max_of x rest |}
      end
  end.

(** Ascending order of tokens, as Python compares [str]. *)
Definition token_lt (a b : string) : Prop := String.ltb a b = true.

(** The order the specification asks of the frequency table: count
    descending, equal counts by ascending token. *)
Definition count_then_token (a b : string * Z) : Prop :=
  snd b < snd a \/ (snd a = snd b /\ token_lt (fst a) (fst b)).

(** [a] is first met in [tokens] before [b] is. *)
Definition first_before (tokens : list string) (a b : string) : Prop :=
  a <> b /\ exists l1 l2, tokens = l1 ++ a :: l2 /\ ~ In b l1.

(** The order the frequency table has: count descending, equal counts by
    first appearance among the reads. *)
Definition count_then_first_read (reads : list read_event)
    (a b : string * Z) : Prop :=
  snd b < snd a \/
  (snd a = snd b /\ first_before (map snd reads) (fst a) (fst b)).

(** A small trace: two writes to [0xb] (the later one is at time 14), four
    copies into [0xd], a comment line, and four reads. *)
Definition unmap_line (t : Z) (res checksum : string) : trace_line :=
  {| is_comment := false; unmap_match := Some (t, res, checksum);
     read_match := None; copy_match := None |}.
Definition read_line (t : Z) (res checksum : string) : trace_line :=
  {| is_comment := false; unmap_match := None;
     read_match := Some (t, res, checksum); copy_match := None |}.
Definition copy_line (t : Z) (src dst : string) : trace_line :=
  {| is_comment := false; unmap_match := None;
     read_match := None; copy_match := Some (t, src, dst) |}.
Definition comment_line : trace_line :=
  {| is_comment := true; unmap_match := None;
     read_match := None; copy_match := Some (1, "0xa", "0xd") |}.

Definition sample_lines : list trace_line :=
  [ unmap_line 3 "0xa" "0x111";
    copy_line 5 "0xa" "0xd";
    unmap_line 6 "0xb" "0x222";
    copy_line 9 "0xb" "0xd";
    copy_line 7 "0xc" "0xd";
    read_line 10 "0xd" "0x222";
    read_line 11 "0xd" "0x333";
    comment_line;
    copy_line 12 "0xe" "0xd";
    read_line 13 "0xd" "0x222";
    unmap_line 14 "0xb" "0x333";
    read_line 4 "0x1" "0x111" ].

Definition sample_trace : trace_state :=
  Eval vm_compute in parse_trace sample_lines.

(** The count a [defaultdict(int)] holds for a key. *)
Definition or_zero (o : option Z) : Z :=
  match o with Some n => n | None => 0 end.

(** Eleven reads of eleven different checksums. *)
Definition eleven_reads : list read_event :=
  [(1, "0xd", "0x1"); (2, "0xd", "0x2"); (3, "0xd", "0x3");
   (4, "0xd", "0x4"); (5, "0xd", "0x5"); (6, "0xd", "0x6");
   (7, "0xd", "0x7"); (8, "0xd", "0x8"); (9, "0xd", "0x9");
   (10, "0xd", "0xa"); (11, "0xd", "0xb")].

(** The reads and the writes a run of lines records, in trace order. *)
Definition logged_reads (lines : list trace_line) : list read_event :=
  flat_map (fun line =>
              if is_comment line then []
              else match read_match line with
                   | Some r => [r]
                   | None => []
                   end) lines.

Definition logged_writes (lines : list trace_line)
    : list (string * write_entry) :=
  flat_map (fun line =>
              if is_comment line then []
              else match unmap_match line with
                   | Some (t, res, ck) => [(res, (t, ck))]
                   | None => []
                   end) lines.

(** The write recorded last for [res], whatever its timestamp. *)
Definition last_write (ws : list (string * write_entry)) (res : string)
    : option write_entry :=
  fold_left (fun acc w => if String.eqb (fst w) res then Some (snd w) else acc)
            ws None.

(** [writes] with every timestamp replaced. *)
Definition retime (f : string -> Z -> Z) (ws : Dict.t write_entry)
    : Dict.t write_entry :=
  map (fun w => (fst w, (f (fst w) (fst (snd w)), snd (snd w)))) ws.

Definition is_match_line (line : report_line) : bool :=
  match line with MATCH _ _ _ => true | MISMATCH _ _ _ _ => false end.

(** Reads a second apart, then one whose timestamp has 401 digits. *)
Definition far_reads : list read_event :=
  [(0, "0xd", "0x1"); (1000000, "0xd", "0x2"); (10 ^ 400, "0xd", "0x3")].

(** A copy found by the search, with its place in the log: no qualifying
    copy before it is as late, none after it is later. *)
Definition first_latest (read_time : Z) (read_res : string)
    (copies : list copy_event) (c : copy_event) : Prop :=
  exists l1 l2, copies = l1 ++ c :: l2 /\
    (forall c', In c' l1 -> qualifies read_time read_res c' ->
                copy_time c' < copy_time c) /\
    (forall c', In c' l2 -> qualifies read_time read_res c' ->
                copy_time c' <= copy_time c).

Definition copy_src (c : copy_event) : string := snd (fst c).

(** A read the specification leaves unclassified: no logged copy qualifies
    for it, or the copy it resolves to, the latest qualifying one and the
    first logged of these, has a source with no recorded write. *)
Definition no_chain (writes : Dict.t write_entry) (copies : list copy_event)
    (r : read_event) : Prop :=
  let '(read_time, read_res, _) := r in
  (forall c, In c copies -> ~ qualifies read_time read_res c) \/
  (exists c, In c copies /\ qualifies read_time read_res c /\
             first_latest read_time read_res copies c /\
             Dict.get writes (copy_src c) = None).

End AnalyzeChecksums.

(** ** find_bursts.py *)

Module FindBursts.

(** Outcome of running a piece of the script: a value, Python's [IndexError]
    from a list subscript, or the model's recursion budget running out. *)
Inductive result (A : Type) : Type :=
| Ok (a : A)
| IndexError
| OutOfFuel.
Arguments Ok {A} a.
Arguments IndexError {A}.
Arguments OutOfFuel {A}.

Definition bind {A B : Type} (r : result A) (k : A -> result B) : result B :=
  match r with
  | Ok a => k a
  | IndexError => IndexError
  | OutOfFuel => OutOfFuel
  end.

Notation "x <- r ;; k" := (bind r (fun x => k))
  (at level 61, r at next level, right associativity).

(** [l[k]] for a non-negative index [k]. *)
Definition getitem (l : list float) (k : nat) : result float :=
  match nth_error l k with
  | Some x => Ok x
  | None => IndexError
  end.

(** The tuple appended to [bursts]. *)
Record burst := {
  burst_first : float;   (* flushes[burst_start] *)
  burst_last : float;    (* flushes[burst_end] *)
  burst_size : Z         (* burst_count *)
}.

(** The three values printed for a burst. *)
Record burst_report := {
  report_start : float;      (* flushes[burst_start] *)
  report_duration : float;   (* burst_duration, in ms *)
  report_count : Z           (* burst_count *)
}.

(** [bursts] and the output so far.  [visited] is not a program variable: it
    logs the value of [i] each time the loop body is entered, that is each
    time a window is tested. *)
Record scan_state := {
  bursts : list burst;
  printed : list burst_report;
  visited : list nat
}.

Definition scan0 : scan_state :=
  {| bursts := []; printed := []; visited := [] |}.

Definition enter (i : nat) (st : scan_state) : scan_state :=
  {| bursts := bursts st; printed := printed st; visited := visited st ++ [i] |}.

Definition emit (b : burst) (r : burst_report) (st : scan_state) : scan_state :=
  {| bursts := bursts st ++ [b]; printed := printed st ++ [r];
     visited := visited st |}.

(** Lines 36-41: [while burst_end < len(flushes) - 1]; returns the final
    [burst_end]. *)
Fixpoint extend (fuel : nat) (flushes : list float) (burst_end : nat)
    : result nat :=
  match fuel with
  | O => OutOfFuel
  | S fuel' =>
      if (Z.of_nat burst_end <? Z.of_nat (length flushes) - 1)%Z then
        next <- getitem flushes (burst_end + 1) ;;
        last <- getitem flushes burst_end ;;
        let gap := (next - last)%float in
        if (gap <? 0.1)%float then extend fuel' flushes (burst_end + 1)
        else Ok burst_end
      else Ok burst_end
  end.

(** Lines 24-59: [while i < len(flushes) - 10]. *)
Fixpoint scan (fuel : nat) (flushes : list float) (i : nat) (st : scan_state)
    : result scan_state :=
  match fuel with
  | O => OutOfFuel
  | S fuel' =>
      if (Z.of_nat i <? Z.of_nat (length flushes) - 10)%Z then
        let st := enter i st in
        window_start <- getitem flushes i ;;
        window_end <- getitem flushes (i + 9) ;;
        let window_duration := (window_end - window_start)%float in
        if (window_duration <? 5.0)%float then
          let burst_start := i in
          burst_end <- extend (length flushes) flushes (i + 9) ;;
          last <- getitem flushes burst_end ;;
          first <- getitem flushes burst_start ;;
          let burst_duration := ((last - first) * 1000)%float in
          let burst_count := (Z.of_nat burst_end - Z.of_nat burst_start + 1)%Z in
          if (burst_count >? 30)%Z then
            scan fuel' flushes (burst_end + 1)
              (emit {| burst_first := first; burst_last := last;
                       burst_size := burst_count |}
                    {| report_start := first;
                       report_duration := burst_duration;
                       report_count := burst_count |} st)
          else scan fuel' flushes (i + 1) st
        else scan fuel' flushes (i + 1) st
      else Ok st
  end.

(** The script from line 22 on.  Each iteration of the outer loop moves [i]
    forward, so [S (length flushes)] iterations are more than it can make. *)
Definition find_bursts (flushes : list float) : result scan_state :=
  scan (S (length flushes)) flushes 0 scan0.

(** *** The algorithm as the specification words it *)

Module Spec.

Definition WINDOW_SIZE : nat := 10.
Definition DENSE_SPAN_THRESHOLD : float := 5.0.
Definition GAP_THRESHOLD : float := 0.1.
Definition MIN_BURST_COUNT : Z := 30.

(** Step 3: while [e < N - 1] and [timestamps[e+1] - timestamps[e] <
    GAP_THRESHOLD], advance [e]. *)
Fixpoint extension (fuel : nat) (timestamps : list float) (e : nat)
    : result nat :=
  match fuel with
  | O => OutOfFuel
  | S fuel' =>
      if (Z.of_nat e <? Z.of_nat (length timestamps) - 1)%Z then
        a <- getitem timestamps (e + 1) ;;
        b <- getitem timestamps e ;;
        if (a - b <? GAP_THRESHOLD)%float
        then extension fuel' timestamps (e + 1)
        else Ok e
      else Ok e
  end.

(** Report per burst: duration in milliseconds, flush count, start time. *)
Definition report (b : burst) : burst_report :=
  {| report_start := burst_first b;
     report_duration := ((burst_last b - burst_first b) * 1000)%float;
     report_count := burst_size b |}.

(** Steps 1, 2, 4 and 5. *)
Fixpoint scanning (fuel : nat) (timestamps : list float) (i : nat)
    (st : scan_state) : result scan_state :=
  match fuel with
  | O => OutOfFuel
  | S fuel' =>
      if (Z.of_nat i <? Z.of_nat (length timestamps) - Z.of_nat WINDOW_SIZE)%Z
      then
        let st := enter i st in
        hi <- getitem timestamps (i + WINDOW_SIZE - 1) ;;
        lo <- getitem timestamps i ;;
        let span := (hi - lo)%float in
        if (DENSE_SPAN_THRESHOLD <=? span)%float
        then scanning fuel' timestamps (i + 1) st
        else
          e <- extension (length timestamps) timestamps (i + WINDOW_SIZE - 1) ;;
          let count := (Z.of_nat e - Z.of_nat i + 1)%Z in
          if (count >? MIN_BURST_COUNT)%Z then
            ts_i <- getitem timestamps i ;;
            ts_e <- getitem timestamps e ;;
            let b := {| burst_first := ts_i; burst_last := ts_e;
                        burst_size := count |} in
            scanning fuel' timestamps (e + 1) (emit b (report b) st)
          else scanning fuel' timestamps (i + 1) st
      else Ok st
  end.

Definition detect (timestamps : list float) : result scan_state :=
  scanning (S (length timestamps)) timestamps 0 scan0.

End Spec.

(** The span of the window anchored at [i]. *)
Definition window_span (flushes : list float) (i : nat) : float :=
  (nth (i + 9) flushes 0 - nth i flushes 0)%float.

(** The gap after position [e]. *)
Definition gap_after (flushes : list float) (e : nat) : float :=
  (nth (e + 1) flushes 0 - nth e flushes 0)%float.

(** No window the scan can test has a NaN span ([inf - inf]). *)
Definition spans_defined (flushes : list float) : bool :=
  forallb (fun i => negb (is_nan (window_span flushes i)))
          (seq 0 (length flushes - 10)).

(** Every gap from position [k] on exceeds five seconds. *)
Definition sparse_from (k : nat) (flushes : list float) : bool :=
  forallb (fun e => (5.0 <? gap_after flushes e)%float)
          (seq k (length flushes - 1 - k)).

(** The digits Python's [format(x, '.0f')] prints for a finite [x]: the
    nearest integer, ties to even.  [None] stands for [inf] and [nan]. *)
Definition round_half_even (m k : Z) : Z :=
  let q := (m / 2 ^ k)%Z in
  let r := (m mod 2 ^ k)%Z in
  match (2 * r ?= 2 ^ k)%Z with
  | Lt => q
  | Gt => (q + 1)%Z
  | Eq => if Z.even q then q else (q + 1)%Z
  end.

Definition format_0f (x : float) : option Z :=
  match Prim2SF x with
  | S754_zero _ => Some 0%Z
  | S754_finite s m e =>
      let n := if (0 <=? e)%Z then (Z.pos m * 2 ^ e)%Z
               else round_half_even (Z.pos m) (- e) in
      Some (if s then (- n)%Z else n)
  | S754_infinity _ | S754_nan => None
  end.

(** The scenarios of the specification, as the timestamps [float(...)]
    yields for the log's decimal text. *)
Definition dense35 : list float :=
  [0.00; 0.01; 0.02; 0.03; 0.04; 0.05; 0.06; 0.07; 0.08; 0.09;
   0.10; 0.11; 0.12; 0.13; 0.14; 0.15; 0.16; 0.17; 0.18; 0.19;
   0.20; 0.21; 0.22; 0.23; 0.24; 0.25; 0.26; 0.27; 0.28; 0.29;
   0.30; 0.31; 0.32; 0.33; 0.34]%float.

Definition tight_then_sparse : list float :=
  [0.00; 0.01; 0.02; 0.03; 0.04; 0.05; 0.06; 0.07; 0.08;
   10.08; 16.0; 22.5; 30.0; 36.0; 42.25; 50.0]%float.

(** A log out of chronological order on which the scan and the
    specification's wording disagree.  [float] turns a timestamp of some
    four hundred digits into [inf]; here it does so for the first and the
    tenth flush, so the first window spans [inf - inf], which is NaN. *)
Definition nan_span_log : list float :=
  [infinity;
   0.00; 0.01; 0.02; 0.03; 0.04; 0.05; 0.06; 0.07;
   infinity;
   0.09; 0.10; 0.11; 0.12; 0.13; 0.14; 0.15; 0.16; 0.17; 0.18; 0.19;
   0.20; 0.21; 0.22; 0.23; 0.24; 0.25; 0.26; 0.27; 0.28; 0.29;
   0.30; 0.31; 0.32; 0.33; 0.34]%float.

(** A burst record the scan can emit from [flushes]: it starts at a cursor
    that has a window of ten and one more flush after it, spans more than
    thirty flushes, and carries the timestamps of its two ends. *)
Definition burst_within (flushes : list float) (b : burst) : Prop :=
  exists i e : nat,
    (i + 10 < length flushes)%nat /\ (i + 9 <= e < length flushes)%nat /\
    burst_first b = nth i flushes 0%float /\
    burst_last b = nth e flushes 0%float /\
    burst_size b = (Z.of_nat e - Z.of_nat i + 1)%Z /\
    (30 < burst_size b)%Z.

(** One turn of the outer loop, once the subscripts are known to be in
    range. *)
Definition after_extend (fuel : nat) (l : list float) (i : nat)
    (st : scan_state) (burst_end : nat) : result scan_state :=
  let first := nth i l 0%float in
  let last := nth burst_end l 0%float in
  let burst_count := (Z.of_nat burst_end - Z.of_nat i + 1)%Z in
  if (burst_count >? 30)%Z then
    scan fuel l (burst_end + 1)
      (emit {| burst_first := first; burst_last := last;
               burst_size := burst_count |}
            {| report_start := first;
               report_duration := ((last - first) * 1000)%float;
               report_count := burst_count |} (enter i st))
  else scan fuel l (i + 1) (enter i st).

(** What holds of the state all along the scan. *)
Definition scan_inv (l : list float) (st : scan_state) : Prop :=
  Forall (fun i => (i + 10 < length l)%nat) (visited st) /\
  Forall (burst_within l) (bursts st).

(** Every gap from position [a] up to [b] is below the threshold. *)
Definition dense_run (flushes : list float) (a b : nat) : Prop :=
  forall k, (a <= k < b)%nat -> (gap_after flushes k <? 0.1)%float = true.

(** The run cannot go past [e]: the log ends there, or the next gap is not
    below the threshold. *)
Definition run_ends (flushes : list float) (e : nat) : Prop :=
  (e + 1 < length flushes)%nat ->
  (gap_after flushes e <? 0.1)%float = false.

(** The tuple appended for the flushes from position [fst r] to [snd r]. *)
Definition burst_of (flushes : list float) (r : nat * nat) : burst :=
  {| burst_first := nth (fst r) flushes 0%float;
     burst_last := nth (snd r) flushes 0%float;
     burst_size := (Z.of_nat (snd r) - Z.of_nat (fst r) + 1)%Z |}.

(** What the scan requires of the positions of a burst: a dense window at
    its start, a dense run after the window up to its end, no way to extend
    it, and more than thirty flushes. *)
Definition range_ok (flushes : list float) (r : nat * nat) : Prop :=
  (fst r + 10 < length flushes)%nat /\
  (fst r + 9 <= snd r < length flushes)%nat /\
  (30 < Z.of_nat (snd r) - Z.of_nat (fst r) + 1)%Z /\
  (window_span flushes (fst r) <? 5.0)%float = true /\
  dense_run flushes (fst r + 9) (snd r) /\
  run_ends flushes (snd r).

(** The first range ends before the second starts. *)
Definition apart (r r' : nat * nat) : Prop := (snd r < fst r')%nat.

(** What holds of the state when the cursor is at [i], with the positions
    of the bursts emitted so far. *)
Definition scan_trace (flushes : list float) (i : nat) (st : scan_state)
    (ranges : list (nat * nat)) : Prop :=
  bursts st = map (burst_of flushes) ranges /\
  Forall (range_ok flushes) ranges /\
  StronglySorted apart ranges /\
  Forall (fun r => (snd r < i)%nat) ranges /\
  (31 * length ranges <= i)%nat /\
  printed st = map Spec.report (bursts st) /\
  StronglySorted lt (visited st) /\
  Forall (fun v => (v < i)%nat) (visited st).

(** The log is in chronological order: no timestamp is NaN and none is
    followed by a smaller one. *)
Definition ordered (flushes : list float) : bool :=
  forallb (fun k => (nth k flushes 0 <=? nth (k + 1) flushes 0)%float)
          (seq 0 (length flushes - 1)).

(** The 35 timestamps of [dense35] latest first: out of chronological
    order, with every span and every gap negative. *)
Definition backwards35 : list float := rev dense35.

(** A chronological log whose last twelve timestamps overflowed to [inf]. *)
Definition dense_then_inf : list float :=
  dense35 ++ repeat infinity 12.

(** Constants of the two float comparisons, decoded. *)
Definition sf_five : spec_float := Eval vm_compute in Prim2SF 5.0.
Definition sf_tenth : spec_float := Eval vm_compute in Prim2SF 0.1.

End FindBursts.

(** * Properties *)

(** ** Dictionaries *)

Module DictFacts.
Section WithValue.
Context {V : Type}.
Implicit Types (d : Dict.t V) (k : string) (v : V).

Lemma get_set_same d k v : Dict.get (Dict.set d k v) k = Some v.
Proof.
  induction d as [|[k' v'] d IH]; simpl.
  - now rewrite String.eqb_refl.
  - destruct (String.eqb k' k) eqn:E; simpl; rewrite E; auto.
Qed.

Lemma get_set_other d k k' v :
  k <> k' -> Dict.get (Dict.set d k v) k' = Dict.get d k'.
Proof.
  intros Hne. induction d as [|[k0 v0] d IH]; simpl.
  - destruct (String.eqb_spec k k'); congruence.
  - destruct (String.eqb_spec k0 k) as [->|]; simpl.
    + destruct (String.eqb_spec k k'); congruence.
    + now rewrite IH.
Qed.

Lemma mem_true_iff d k : Dict.mem d k = true <-> In k (Dict.keys d).
Proof.
  unfold Dict.mem. induction d as [|[k' v'] d IH]; simpl.
  - split; [discriminate | tauto].
  - destruct (String.eqb_spec k' k) as [->|Hne].
    + tauto.
    + rewrite IH. split; [tauto | intros [?|?]; congruence].
Qed.

Lemma mem_false_iff d k : Dict.mem d k = false <-> ~ In k (Dict.keys d).
Proof.
  rewrite <- mem_true_iff. destruct (Dict.mem d k); split; congruence.
Qed.

Lemma keys_set d k v :
  Dict.keys (Dict.set d k v) =
  if Dict.mem d k then Dict.keys d else Dict.keys d ++ [k].
Proof.
  unfold Dict.mem. induction d as [|[k' v'] d IH]; simpl; auto.
  destruct (String.eqb k' k) eqn:E; simpl; auto.
  rewrite IH. now destruct (Dict.get d k).
Qed.

Lemma NoDup_keys_set d k v :
  NoDup (Dict.keys d) -> NoDup (Dict.keys (Dict.set d k v)).
Proof.
  intros Hd. rewrite keys_set. destruct (Dict.mem d k) eqn:E; auto.
  apply mem_false_iff in E.
  apply NoDup_app; auto.
  - repeat constructor. simpl. tauto.
  - intros x Hx [<-|[]]. contradiction.
Qed.
End WithValue.
End DictFacts.

(** ** analyze_checksums.py: provenance and verification *)

Module ChecksumFacts.
Import AnalyzeChecksums.
Open Scope string_scope.
Open Scope list_scope.
Open Scope Z_scope.

Lemma recent_copy_step_qualifying read_time read_res acc ct src dst :
  qualifies read_time read_res (ct, src, dst) ->
  recent_copy_step read_time read_res acc (ct, src, dst) =
  match acc with
  | None => Some (ct, src, dst)
  | Some (rt, _, _) => if ct >? rt then Some (ct, src, dst) else acc
  end.
Proof.
  intros [Hlt ->]. unfold recent_copy_step.
  apply Z.ltb_lt in Hlt. now rewrite Hlt, String.eqb_refl.
Qed.

Lemma recent_copy_step_other read_time read_res acc c :
  ~ qualifies read_time read_res c ->
  recent_copy_step read_time read_res acc c = acc.
Proof.
  destruct c as [[ct src] dst]. intros Hn. unfold recent_copy_step.
  destruct (ct <? read_time) eqn:Hlt; simpl; auto.
  destruct (String.eqb_spec dst read_res) as [->|]; auto.
  exfalso. apply Hn. split; auto. now apply Z.ltb_lt.
Qed.

Lemma qualifies_dec read_time read_res c :
  {qualifies read_time read_res c} + {~ qualifies read_time read_res c}.
Proof.
  destruct c as [[ct src] dst]. unfold qualifies.
  destruct (Z_lt_dec ct read_time); [|right; tauto].
  destruct (String.string_dec dst read_res); [left|right]; tauto.
Qed.

Lemma latest_among_step read_time read_res seen acc c :
  latest_among read_time read_res seen acc ->
  latest_among read_time read_res (seen ++ [c])
    (recent_copy_step read_time read_res acc c).
Proof.
  intros Hinv.
  destruct (qualifies_dec read_time read_res c) as [Hq|Hq].
  - destruct c as [[ct src] dst].
    rewrite recent_copy_step_qualifying by assumption.
    destruct acc as [[[rt rs] rd]|]; simpl in *.
    + destruct Hinv as (Hin & Hqr & Hmax).
      destruct (ct >? rt) eqn:Hgt.
      * apply Z.gtb_lt in Hgt. repeat split; try apply Hq.
        -- apply in_or_app. right. now left.
        -- intros c' Hc' Hq'. apply in_app_or in Hc' as [Hc'|[<-|[]]].
           ++ specialize (Hmax c' Hc' Hq'). unfold copy_time in *. simpl in *. lia.
           ++ lia.
      * assert (ct <= rt) by (rewrite Z.gtb_ltb in Hgt; apply Z.ltb_ge in Hgt; lia).
        repeat split; try apply Hqr.
        -- apply in_or_app. now left.
        -- intros c' Hc' Hq'. apply in_app_or in Hc' as [Hc'|[<-|[]]]; auto.
    + repeat split; try apply Hq.
      * apply in_or_app. right. now left.
      * intros c' Hc' Hq'. apply in_app_or in Hc' as [Hc'|[<-|[]]].
        -- now apply Hinv in Hc'.
        -- lia.
  - rewrite recent_copy_step_other by assumption.
    destruct acc as [r|]; simpl in *.
    + destruct Hinv as (Hin & Hqr & Hmax). repeat split; auto.
      * apply in_or_app. now left.
      * intros c' Hc' Hq'. apply in_app_or in Hc' as [Hc'|[<-|[]]]; auto.
        contradiction.
    + intros c' Hc'. apply in_app_or in Hc' as [Hc'|[<-|[]]]; auto.
Qed.

Lemma latest_among_fold read_time read_res rest : forall seen acc,
  latest_among read_time read_res seen acc ->
  latest_among read_time read_res (seen ++ rest)
    (fold_left (recent_copy_step read_time read_res) rest acc).
Proof.
  induction rest as [|c rest IH]; intros seen acc Hinv; simpl.
  - now rewrite app_nil_r.
  - replace (seen ++ c :: rest) with ((seen ++ [c]) ++ rest)
      by now rewrite <- app_assoc.
    apply IH. now apply latest_among_step.
Qed.

Lemma find_recent_copy_latest_among copies read_time read_res :
  latest_among read_time read_res copies
    (find_recent_copy copies read_time read_res).
Proof.
  apply (latest_among_fold read_time read_res copies [] None).
  intros c' [].
Qed.

(** C2: the search returns a qualifying copy of greatest timestamp, and
    returns nothing exactly when no copy qualifies. *)
Theorem find_recent_copy_spec copies read_time read_res :
  (forall c, find_recent_copy copies read_time read_res = Some c ->
     In c copies /\ qualifies read_time read_res c /\
     forall c', In c' copies -> qualifies read_time read_res c' ->
                copy_time c' <= copy_time c) /\
  (find_recent_copy copies read_time read_res = None <->
   forall c', In c' copies -> ~ qualifies read_time read_res c').
Proof.
  pose proof (find_recent_copy_latest_among copies read_time read_res) as H.
  destruct (find_recent_copy copies read_time read_res) as [c|]; simpl in H.
  - split.
    + intros c0 [= <-]. exact H.
    + split; [discriminate|]. intros Hno.
      destruct H as (Hin & Hq & _). now apply Hno in Hin.
  - split; [discriminate|]. split; auto.
Qed.

Lemma find_recent_copy_spec_witness :
  find_recent_copy (copies sample_trace) 10 "0xd" = Some (9, "0xb", "0xd") /\
  copy_time (7, "0xc", "0xd") <= copy_time (9, "0xb", "0xd").
Proof.
  split; [reflexivity|].
  refine (proj2 (proj2 (proj1
            (find_recent_copy_spec (copies sample_trace) 10 "0xd")
            (9, "0xb", "0xd") eq_refl))
            (7, "0xc", "0xd") _ _).
  - simpl. tauto.
  - simpl. split; [lia | reflexivity].
Defined.

Lemma skipn_length_app {A : Type} (l l' : list A) :
  skipn (length l) (l ++ l') = l'.
Proof. induction l; simpl; auto. Qed.

Lemma classification_of_same acc : classification_of acc acc = Unclassified.
Proof.
  unfold classification_of.
  rewrite <- (app_nil_r (printed acc)) at 2. now rewrite skipn_length_app.
Qed.

(** The three ways an iteration of the verification loop can end. *)
Lemma verify_read_cases writes copies acc read_time read_res read_checksum :
  let r := (read_time, read_res, read_checksum) in
  match find_recent_copy copies read_time read_res with
  | Some (_, src_res, _) =>
      match Dict.get writes src_res with
      | Some (_, write_checksum) =>
          unresolved writes copies r = false /\
          if String.eqb write_checksum read_checksum then
            verify_read writes copies acc r =
            {| matches := matches acc + 1; mismatches := mismatches acc;
               printed := printed acc ++
                          [MATCH src_res read_res write_checksum] |}
          else
            verify_read writes copies acc r =
            {| matches := matches acc; mismatches := mismatches acc + 1;
               printed := printed acc ++
                 [MISMATCH src_res write_checksum read_res read_checksum] |}
      | None => unresolved writes copies r = true /\
                verify_read writes copies acc r = acc
      end
  | None => unresolved writes copies r = true /\
            verify_read writes copies acc r = acc
  end.
Proof.
  unfold verify_read, unresolved, Dict.mem, write_entry in *; simpl.
  destruct (find_recent_copy copies read_time read_res) as [[[ct src] dst]|];
    auto.
  destruct (Dict.get writes src) as [[wt wc]|]; auto.
  destruct (String.eqb wc read_checksum); auto.
Qed.

(** C1: a read whose chain resolves to a write is a Match exactly when the
    write's checksum is the read's checksum and a Mismatch otherwise, the
    matching counter alone being incremented; a read with no resolvable chain
    changes neither counter. *)
Theorem verify_read_classification
    writes copies acc read_time read_res read_checksum :
  let r := (read_time, read_res, read_checksum) in
  let acc' := verify_read writes copies acc r in
  (forall ct src dst wt wc,
     find_recent_copy copies read_time read_res = Some (ct, src, dst) ->
     Dict.get writes src = Some (wt, wc) ->
     (classification_of acc acc' = Match <-> wc = read_checksum) /\
     (classification_of acc acc' = Mismatch <-> wc <> read_checksum) /\
     (wc = read_checksum ->
      matches acc' = matches acc + 1 /\ mismatches acc' = mismatches acc) /\
     (wc <> read_checksum ->
      matches acc' = matches acc /\ mismatches acc' = mismatches acc + 1)) /\
  (unresolved writes copies r = true ->
   acc' = acc /\ classification_of acc acc' = Unclassified).
Proof.
  intros r acc'.
  pose proof (verify_read_cases writes copies acc
                read_time read_res read_checksum) as H.
  cbv zeta in H. subst r acc'. unfold write_entry in *. split.
  - intros ct src dst wt wc Hc Hw. rewrite Hc, Hw in H.
    destruct H as [_ H].
    destruct (String.eqb_spec wc read_checksum) as [Heq|Hne];
      rewrite H; unfold classification_of; simpl;
      rewrite skipn_length_app; repeat split;
      try tauto; try discriminate; try congruence.
  - intros Hu.
    destruct (find_recent_copy copies read_time read_res) as [[[ct src] dst]|].
    + destruct (Dict.get writes src) as [[wt wc]|].
      * destruct H as [H _]. congruence.
      * destruct H as [_ ->]. split; auto. apply classification_of_same.
    + destruct H as [_ ->]. split; auto. apply classification_of_same.
Qed.

Lemma verify_read_classification_witness :
  classification_of tally0
    (verify_read (writes sample_trace) (copies sample_trace) tally0
       (11, "0xd", "0x333")) = Match.
Proof.
  refine (proj2 (proj1 (proj1
    (verify_read_classification (writes sample_trace) (copies sample_trace)
       tally0 11 "0xd" "0x333") 9 "0xb" "0xd" 14 "0x333" _ _)) _);
    reflexivity.
Defined.

Lemma verify_reads_count writes copies rs : forall acc,
  let acc' := fold_left (verify_read writes copies) rs acc in
  matches acc' + mismatches acc' +
    Z.of_nat (length (filter (unresolved writes copies) rs)) =
  matches acc + mismatches acc + Z.of_nat (length rs).
Proof.
  induction rs as [|[[rt rr] rc] rs IH]; intros acc; cbv zeta.
  - simpl. lia.
  - cbn [fold_left filter length].
    specialize (IH (verify_read writes copies acc (rt, rr, rc))).
    cbv zeta in IH.
    pose proof (verify_read_cases writes copies acc rt rr rc) as H.
    cbv zeta in H. unfold write_entry in *.
    rewrite Nat2Z.inj_succ.
    destruct (find_recent_copy copies rt rr) as [[[ct src] dst]|].
    + destruct (Dict.get writes src) as [[wt wc]|].
      * destruct H as [Hu H]. rewrite Hu.
        destruct (String.eqb wc rc); rewrite H in IH |- *; simpl in IH; lia.
      * destruct H as [Hu H]. rewrite Hu, H in *. cbn [length].
        rewrite Nat2Z.inj_succ. lia.
    + destruct H as [Hu H]. rewrite Hu, H in *. cbn [length].
      rewrite Nat2Z.inj_succ. lia.
Qed.

(** What [recent_copy] satisfies once [seen] has been visited, with the place
    of the copy in [seen]. *)
Lemma first_latest_step read_time read_res seen acc c :
  match acc with
  | Some r => first_latest read_time read_res seen r
  | None => forall c', In c' seen -> ~ qualifies read_time read_res c'
  end ->
  match recent_copy_step read_time read_res acc c with
  | Some r => first_latest read_time read_res (seen ++ [c]) r
  | None => forall c', In c' (seen ++ [c]) -> ~ qualifies read_time read_res c'
  end.
Proof.
  intros Hinv.
  destruct (qualifies_dec read_time read_res c) as [Hq|Hq].
  - destruct c as [[ct src] dst].
    rewrite recent_copy_step_qualifying by assumption.
    destruct acc as [[[rt rs] rd]|].
    + destruct Hinv as (l1 & l2 & -> & Hbefore & Hafter).
      destruct (ct >? rt) eqn:Hgt.
      * apply Z.gtb_lt in Hgt.
        exists (l1 ++ (rt, rs, rd) :: l2), []. split; [reflexivity|].
        split; [|intros c' []].
        intros c' Hin Hq'. unfold copy_time in *. simpl in *.
        apply in_app_or in Hin as [Hin|[<-|Hin]].
        -- specialize (Hbefore c' Hin Hq'). lia.
        -- simpl. lia.
        -- specialize (Hafter c' Hin Hq'). lia.
      * assert (ct <= rt)
          by (rewrite Z.gtb_ltb in Hgt; apply Z.ltb_ge in Hgt; lia).
        exists l1, (l2 ++ [(ct, src, dst)]).
        split; [now rewrite <- app_assoc|]. split; [assumption|].
        intros c' Hin Hq'. apply in_app_or in Hin as [Hin|[<-|[]]]; auto.
    + exists seen, []. split; [reflexivity|]. split; [|intros c' []].
      intros c' Hin Hq'. now apply Hinv in Hin.
  - rewrite recent_copy_step_other by assumption.
    destruct acc as [r|].
    + destruct Hinv as (l1 & l2 & -> & Hbefore & Hafter).
      exists l1, (l2 ++ [c]). split; [now rewrite <- app_assoc|].
      split; [assumption|].
      intros c' Hin Hq'. apply in_app_or in Hin as [Hin|[<-|[]]]; auto.
      contradiction.
    + intros c' Hin. apply in_app_or in Hin as [Hin|[<-|[]]]; auto.
Qed.

Lemma first_latest_fold read_time read_res rest : forall seen acc,
  match acc with
  | Some r => first_latest read_time read_res seen r
  | None => forall c', In c' seen -> ~ qualifies read_time read_res c'
  end ->
  match fold_left (recent_copy_step read_time read_res) rest acc with
  | Some r => first_latest read_time read_res (seen ++ rest) r
  | None => forall c', In c' (seen ++ rest) ->
                       ~ qualifies read_time read_res c'
  end.
Proof.
  induction rest as [|c rest IH]; intros seen acc Hinv; simpl.
  - now rewrite app_nil_r.
  - replace (seen ++ c :: rest) with ((seen ++ [c]) ++ rest)
      by now rewrite <- app_assoc.
    apply IH. now apply first_latest_step.
Qed.

Lemma find_recent_copy_place copies read_time read_res :
  match find_recent_copy copies read_time read_res with
  | Some c => In c copies /\ qualifies read_time read_res c /\
              first_latest read_time read_res copies c
  | None => forall c', In c' copies -> ~ qualifies read_time read_res c'
  end.
Proof.
  pose proof (find_recent_copy_latest_among copies read_time read_res) as Hl.
  pose proof (first_latest_fold read_time read_res copies [] None) as Hf.
  simpl in Hf. fold (find_recent_copy copies read_time read_res) in Hf.
  unfold latest_among in Hl.
  destruct (find_recent_copy copies read_time read_res) as [c|].
  - destruct Hl as (Hin & Hq & _).
    split; [assumption|]. split; [assumption|]. apply Hf. intros c' [].
  - exact Hl.
Qed.

Lemma app_cons_split {A : Type} (a b : A) (l2 l2' : list A) :
  forall l1 l1', l1 ++ a :: l2 = l1' ++ b :: l2' ->
  a = b \/ (In b l1 /\ In a l2') \/ (In a l1' /\ In b l2).
Proof.
  induction l1 as [|y l1 IH]; intros [|x l1'] H; simpl in H.
  - left. congruence.
  - right; right. injection H as -> ->. split; [now left | apply in_elt].
  - right; left. injection H as <- <-. split; [now left | apply in_elt].
  - injection H as -> H. destruct (IH _ H) as [?|[[? ?]|[? ?]]].
    + now left.
    + right; left. split; [now right | assumption].
    + right; right. split; [now right | assumption].
Qed.

(** A read resolves to one copy only: the latest qualifying one, and the
    first logged of these. *)
Lemma first_latest_unique read_time read_res copies c c0 :
  qualifies read_time read_res c -> qualifies read_time read_res c0 ->
  first_latest read_time read_res copies c ->
  first_latest read_time read_res copies c0 ->
  c = c0.
Proof.
  intros Hq Hq0 (l1 & l2 & -> & Hb & Ha) (l1' & l2' & Heq & Hb0 & Ha0).
  apply app_cons_split in Heq as [?|[[H1 H2]|[H1 H2]]]; auto.
  - specialize (Hb _ H1 Hq0). specialize (Ha0 _ H2 Hq). lia.
  - specialize (Hb0 _ H1 Hq). specialize (Ha _ H2 Hq0). lia.
Qed.

Lemma unresolved_no_chain writes copies rt rr rc :
  unresolved writes copies (rt, rr, rc) = true <->
  no_chain writes copies (rt, rr, rc).
Proof.
  unfold unresolved, no_chain.
  pose proof (find_recent_copy_place copies rt rr) as Hp.
  destruct (find_recent_copy copies rt rr) as [[[ct src] dst]|].
  - destruct Hp as (Hin & Hq & Hf). rewrite negb_true_iff.
    unfold Dict.mem, write_entry in *. split.
    + intros Hm. right. exists (ct, src, dst).
      split; [assumption|]. split; [assumption|]. split; [assumption|].
      cbn [copy_src fst snd].
      now destruct (Dict.get writes src).
    + intros [Hno|(c & Hin' & Hq' & Hf' & Hw)].
      * now apply Hno in Hin.
      * assert (c = (ct, src, dst))
          by (eapply first_latest_unique; eauto).
        subst c. cbn [copy_src fst snd] in Hw. now rewrite Hw.
  - split; auto.
Qed.

(** C8: once every read is verified, matches + mismatches is at most the
    number of reads, and what is missing is exactly the number of reads left
    unclassified; these are the reads with no qualifying copy, or whose
    resolved copy's source has no recorded write. *)
Theorem verify_reads_shortfall (st : trace_state) :
  let total := Z.of_nat (length (reads st)) in
  let t := verify_reads st in
  matches t + mismatches t <= total /\
  total - (matches t + mismatches t) =
    Z.of_nat (length (filter (unresolved (writes st) (copies st)) (reads st))) /\
  (forall acc r, unresolved (writes st) (copies st) r = true <->
     classification_of acc (verify_read (writes st) (copies st) acc r)
       = Unclassified) /\
  (forall r, unresolved (writes st) (copies st) r = true <->
     no_chain (writes st) (copies st) r).
Proof.
  intros total t.
  pose proof (verify_reads_count (writes st) (copies st) (reads st) tally0) as H.
  cbv zeta in H. fold (verify_reads st) in H. fold t in H. simpl in H.
  fold total in H. split; [lia|]. split; [lia|].
  split; [|intros [[rt rr] rc]; apply unresolved_no_chain].
  intros acc [[rt rr] rc].
  pose proof (verify_read_cases (writes st) (copies st) acc rt rr rc) as Hc.
  cbv zeta in Hc. revert Hc.
  destruct (find_recent_copy (copies st) rt rr) as [[[ct src] dst]|].
  - destruct (@Dict.get (Z * string) (writes st) src) as [[wt wc]|].
    + intros [Hu Hc]. rewrite Hu. revert Hc.
      destruct (String.eqb wc rc); intros ->; unfold classification_of;
        simpl; rewrite skipn_length_app; split; intros; discriminate.
    + intros [Hu Hc]. rewrite Hu, Hc, classification_of_same. tauto.
  - intros [Hu Hc]. rewrite Hu, Hc, classification_of_same. tauto.
Qed.

Lemma writes_parse_line st line :
  writes (parse_line st line) =
  if is_comment line then writes st
  else match unmap_match line with
       | Some (t, res, ck) => Dict.set (writes st) res (t, ck)
       | None => writes st
       end.
Proof.
  unfold parse_line. destruct (is_comment line); auto.
  destruct (unmap_match line) as [[[t res] ck]|];
    destruct (read_match line) as [[[t' res'] ck']|];
    destruct (copy_match line) as [[[t'' src] dst]|]; reflexivity.
Qed.

Lemma copies_parse_line st line :
  copies (parse_line st line) = copies st ++ logged_copies [line].
Proof.
  unfold parse_line, logged_copies. simpl.
  destruct (is_comment line); simpl; [now rewrite app_nil_r|].
  destruct (unmap_match line) as [[[t res] ck]|];
    destruct (read_match line) as [[[t' res'] ck']|];
    destruct (copy_match line) as [[[t'' src] dst]|]; simpl;
    now rewrite ?app_nil_r.
Qed.

Lemma logged_copies_app l1 l2 :
  logged_copies (l1 ++ l2) = logged_copies l1 ++ logged_copies l2.
Proof. apply flat_map_app. Qed.

Lemma copies_fold lines : forall st,
  copies (fold_left parse_line lines st) = copies st ++ logged_copies lines.
Proof.
  induction lines as [|line lines IH]; intros st; simpl fold_left.
  - simpl. now rewrite app_nil_r.
  - rewrite IH, copies_parse_line, <- app_assoc, <- logged_copies_app.
    reflexivity.
Qed.

Lemma NoDup_writes_fold lines : forall st,
  NoDup (Dict.keys (writes st)) ->
  NoDup (Dict.keys (writes (fold_left parse_line lines st))).
Proof.
  induction lines as [|line lines IH]; intros st Hst; simpl; auto.
  apply IH. rewrite writes_parse_line.
  destruct (is_comment line); auto.
  destruct (unmap_match line) as [[[t res] ck]|]; auto.
  now apply DictFacts.NoDup_keys_set.
Qed.

(** C9: at every point of the extraction the index holds at most one write
    per resource; a write line replaces the entry of its resource by its own
    timestamp and checksum, whatever the timestamps are, and leaves the other
    resources alone; the copies only grow, by appending. *)
Theorem provenance_index_invariant (lines : list trace_line) :
  let st := parse_trace lines in
  NoDup (Dict.keys (writes st)) /\
  (forall line t res ck,
     is_comment line = false -> unmap_match line = Some (t, res, ck) ->
     let st' := parse_trace (lines ++ [line]) in
     Dict.get (writes st') res = Some (t, ck) /\
     forall other, res <> other ->
       Dict.get (writes st') other = Dict.get (writes st) other) /\
  (forall more,
     copies (parse_trace (lines ++ more)) = copies st ++ logged_copies more).
Proof.
  intros st. subst st. unfold parse_trace. split; [|split].
  - apply NoDup_writes_fold. constructor.
  - intros line t res ck Hc Hu. cbv zeta. rewrite fold_left_app. simpl.
    rewrite writes_parse_line, Hc, Hu. split.
    + apply DictFacts.get_set_same.
    + intros other Hne. now apply DictFacts.get_set_other.
  - intros more. rewrite fold_left_app. apply copies_fold.
Qed.

Lemma provenance_index_invariant_witness :
  Dict.get (writes (parse_trace
     ([unmap_line 20 "0xb" "0x222"] ++ [unmap_line 6 "0xb" "0x999"]))) "0xb"
  = Some (6, "0x999").
Proof.
  refine (proj1 (proj1 (proj2
    (provenance_index_invariant [unmap_line 20 "0xb" "0x222"]))
    (unmap_line 6 "0xb" "0x999") 6 "0xb" "0x999" _ _)); reflexivity.
Defined.

(** ** analyze_checksums.py: timing *)

Lemma read_intervals_length rs :
  length (read_intervals rs) = (length rs - 1)%nat.
Proof. unfold read_intervals. now rewrite length_map, length_seq. Qed.

Lemma read_intervals_nth rs i :
  (i + 1 < length rs)%nat ->
  nth i (read_intervals rs) 0 =
  read_time_at rs (i + 1) - read_time_at rs i.
Proof.
  intros Hi. unfold read_intervals.
  set (f := fun i => read_time_at rs i - read_time_at rs (i - 1)).
  rewrite (nth_indep _ 0 (f O)) by (rewrite length_map, length_seq; lia).
  rewrite map_nth, seq_nth by lia. unfold f.
  replace (1 + i)%nat with (i + 1)%nat by lia.
  now replace (i + 1 - 1)%nat with i by lia.
Qed.

(** C7: the intervals are the differences of consecutive read timestamps in
    the order the reads were met; with fewer than two reads there are no
    intervals and the section ends with no statistics and no error; with two
    or more it prints statistics unless the average is beyond the doubles;
    on timestamps 100, 300, 700 the intervals are 200 and 400, of mean 300,
    minimum 200 and maximum 400. *)
Theorem timing_analysis_spec :
  (forall rs,
     length (read_intervals rs) = (length rs - 1)%nat /\
     forall i, (i + 1 < length rs)%nat ->
       nth i (read_intervals rs) 0 =
       read_time_at rs (i + 1) - read_time_at rs i) /\
  (forall rs, (length rs < 2)%nat ->
     read_intervals rs = [] /\ timing_analysis rs = NoStatistics) /\
  (forall rs, (2 <= length rs)%nat ->
     timing_analysis rs = OverflowError \/
     exists s, timing_analysis rs = Statistics s) /\
  (let rs := [(100, "0xd", "0x1"); (300, "0xd", "0x2"); (700, "0xd", "0x3")] in
   read_intervals rs = [200; 400] /\
   timing_analysis rs =
     Statistics {| avg_interval := 300%float;
                   min_interval := 200; max_interval := 400 |}).
Proof.
  split; [|split; [|split]].
  - intros rs. split.
    + apply read_intervals_length.
    + intros i. apply read_intervals_nth.
  - intros rs Hlt.
    assert (Hnil : read_intervals rs = []).
    { apply length_zero_iff_nil. rewrite read_intervals_length. lia. }
    split; auto. unfold timing_analysis. now rewrite Hnil.
  - intros rs Hge. unfold timing_analysis.
    pose proof (read_intervals_length rs) as Hlen.
    destruct (read_intervals rs) as [|x rest]; [simpl in Hlen; lia|].
    destruct (true_divide _ _) as [avg|]; [right; eauto | now left].
  - cbv zeta. split; [reflexivity|]. vm_compute. reflexivity.
Qed.

Lemma timing_analysis_spec_witness :
  read_intervals [(7, "0xd", "0x1")] = [] /\
  timing_analysis [(7, "0xd", "0x1")] = NoStatistics /\
  nth 1 (read_intervals
           [(100, "0xd", "0x1"); (300, "0xd", "0x2"); (700, "0xd", "0x3")]) 0
  = 400.
Proof.
  destruct timing_analysis_spec as (Hnth & Hfew & _).
  split; [|split].
  - apply Hfew. simpl. lia.
  - apply Hfew. simpl. lia.
  - rewrite (proj2 (Hnth _)) by (simpl; lia). reflexivity.
Defined.

(** The division of line 92 as Python carries it out: it raises when the
    average is beyond the doubles, and it rounds, so that the average
    printed can lie below the minimum printed. *)
Lemma timing_analysis_overflow :
  timing_analysis far_reads = OverflowError.
Proof. vm_compute. reflexivity. Qed.

Lemma timing_analysis_rounds :
  timing_analysis [(0, "0xd", "0x1"); (2 ^ 53 + 1, "0xd", "0x2");
                   (2 ^ 54 + 2, "0xd", "0x3")] =
  Statistics {| avg_interval := 9007199254740992%float;
                min_interval := 9007199254740993;
                max_interval := 9007199254740993 |}.
Proof. vm_compute. reflexivity. Qed.

(** ** analyze_checksums.py: the frequency table *)

Section StableSort.
Context {A : Type} (key : A -> Z) (P : A -> A -> Prop).

Lemma key_then_le a b : key_then key P a b -> key a <= key b.
Proof. unfold key_then. lia. Qed.

Lemma Forall_insert_by_key (Q : A -> Prop) x l :
  Q x -> Forall Q l -> Forall Q (insert_by_key key x l).
Proof.
  intros Hx Hl. induction Hl as [|y l Hy Hl IH]; simpl.
  - auto.
  - destruct (key x <=? key y); auto.
Qed.

Lemma Forall_sorted_by_key (Q : A -> Prop) l :
  Forall Q l -> Forall Q (sorted_by_key key l).
Proof.
  induction 1; simpl; auto using Forall_insert_by_key.
Qed.

Lemma insert_by_key_sorted x l :
  StronglySorted (key_then key P) l -> Forall (P x) l ->
  StronglySorted (key_then key P) (insert_by_key key x l).
Proof.
  induction 1 as [|y l Hs IH Hy]; intros Hx; simpl.
  - repeat constructor.
  - inversion Hx as [|? ? Pxy Pxl]; subst.
    destruct (key x <=? key y) eqn:Hle.
    + apply Z.leb_le in Hle. constructor.
      * now constructor.
      * constructor.
        -- destruct (Z.eq_dec (key x) (key y)); [right; auto | left; lia].
        -- rewrite Forall_forall in *. intros z Hz.
           pose proof (key_then_le _ _ (Hy z Hz)).
           pose proof (Pxl z Hz).
           destruct (Z.eq_dec (key x) (key z)); [right; auto | left; lia].
    + apply Z.leb_gt in Hle. constructor; auto.
      apply Forall_insert_by_key; auto. left. lia.
Qed.

Lemma sorted_by_key_sorted l :
  StronglySorted P l -> StronglySorted (key_then key P) (sorted_by_key key l).
Proof.
  induction 1 as [|x l Hs IH Hx]; simpl.
  - constructor.
  - apply insert_by_key_sorted; auto. now apply Forall_sorted_by_key.
Qed.
End StableSort.

Lemma StronglySorted_impl {A : Type} (R R' : A -> A -> Prop) l :
  (forall a b, R a b -> R' a b) ->
  StronglySorted R l -> StronglySorted R' l.
Proof.
  intros Himp. induction 1 as [|x l Hs IH Hx]; constructor; auto.
  revert Hx. apply Forall_impl. intros b. apply Himp.
Qed.

Lemma StronglySorted_map {A B : Type} (f : A -> B) (R : B -> B -> Prop) l :
  StronglySorted R (map f l) <-> StronglySorted (fun a b => R (f a) (f b)) l.
Proof.
  induction l as [|x l IH]; simpl.
  - split; constructor.
  - split; intros H; inversion H; subst; constructor;
      try (apply IH; assumption); rewrite Forall_map in *; assumption.
Qed.

Lemma StronglySorted_snoc {A : Type} (R : A -> A -> Prop) l x :
  StronglySorted R l -> Forall (fun a => R a x) l ->
  StronglySorted R (l ++ [x]).
Proof.
  induction 1 as [|y l Hs IH Hy]; intros Hx; simpl.
  - repeat constructor.
  - inversion Hx; subst. constructor; auto.
    apply Forall_app. split; auto.
Qed.

Lemma StronglySorted_firstn {A : Type} (R : A -> A -> Prop) n : forall l,
  StronglySorted R l -> StronglySorted R (firstn n l).
Proof.
  induction n as [|n IH]; intros l Hs; simpl; [constructor|].
  destruct Hs as [|x l Hs Hx]; constructor; auto.
  rewrite Forall_forall in *. intros y Hy. apply Hx.
  rewrite <- (firstn_skipn n l). apply in_or_app. now left.
Qed.

Lemma first_before_snoc tokens c a b :
  first_before tokens a b -> first_before (tokens ++ [c]) a b.
Proof.
  intros (Hne & l1 & l2 & -> & Hnin). split; auto.
  exists l1, (l2 ++ [c]). split; auto. now rewrite <- app_assoc.
Qed.

Lemma first_before_new tokens c a :
  In a tokens -> ~ In c tokens -> first_before (tokens ++ [c]) a c.
Proof.
  intros Ha Hc. split; [congruence|].
  apply in_split in Ha as (l1 & l2 & ->).
  exists l1, (l2 ++ [c]). split; [now rewrite <- app_assoc|].
  intros Hin. apply Hc. apply in_or_app. now left.
Qed.

Lemma checksum_counts_snoc rs r :
  checksum_counts (rs ++ [r]) = count_checksum (checksum_counts rs) r.
Proof. unfold checksum_counts. now rewrite fold_left_app. Qed.

(** The keys of the table are the tokens read so far, in the order they
    first appeared. *)
Lemma checksum_counts_keys rs :
  (forall k, In k (Dict.keys (checksum_counts rs)) <-> In k (map snd rs)) /\
  StronglySorted (first_before (map snd rs)) (Dict.keys (checksum_counts rs)).
Proof.
  induction rs as [|[[t res] c] rs [IHin IHs]] using rev_ind.
  - split; [tauto | constructor].
  - rewrite checksum_counts_snoc, map_app. simpl map.
    unfold count_checksum. rewrite DictFacts.keys_set.
    destruct (Dict.mem (checksum_counts rs) c) eqn:Hmem.
    + apply DictFacts.mem_true_iff in Hmem. split.
      * intros k. rewrite in_app_iff, IHin. simpl.
        split; [tauto|]. intros [?|[<-|[]]]; auto. now apply IHin.
      * eapply StronglySorted_impl; [|exact IHs].
        intros a b. apply first_before_snoc.
    + apply DictFacts.mem_false_iff in Hmem. split.
      * intros k. rewrite !in_app_iff, IHin. tauto.
      * apply StronglySorted_snoc.
        -- eapply StronglySorted_impl; [|exact IHs].
           intros a b. apply first_before_snoc.
        -- apply Forall_forall. intros a Ha.
           apply first_before_new; [now apply IHin|].
           intros Hc. apply Hmem. now apply IHin.
Qed.

(** C5, as the script behaves: the table is ordered by count, greatest first,
    and entries of equal count stand in the order in which their tokens were
    first read. *)
Theorem top10_order (rs : list read_event) :
  StronglySorted (count_then_first_read rs) (top10 rs).
Proof.
  unfold top10. apply StronglySorted_firstn.
  eapply StronglySorted_impl;
    [|apply (sorted_by_key_sorted (fun x : string * Z => - snd x)
               (fun a b => first_before (map snd rs) (fst a) (fst b)))].
  - intros a b [Hlt|[Heq Hfb]]; [left|right]; simpl in *; [lia|].
    split; [lia | exact Hfb].
  - apply StronglySorted_map. apply checksum_counts_keys.
Qed.

(** C5 as stated fails: two tokens read once each stay in reading order,
    here ["0xb"] before ["0xa"]. *)
Lemma top10_ties_not_by_token :
  top10 [(1, "0xd", "0xb"); (2, "0xd", "0xa")] = [("0xb", 1); ("0xa", 1)] /\
  ~ StronglySorted count_then_token
      (top10 [(1, "0xd", "0xb"); (2, "0xd", "0xa")]).
Proof.
  split; [reflexivity|]. intros Hs.
  change (top10 [(1, "0xd", "0xb"); (2, "0xd", "0xa")])
    with [("0xb", 1); ("0xa", 1)] in Hs.
  inversion Hs as [|? ? _ Hall]; subst.
  inversion Hall as [|? ? [Hlt|[_ Htok]] _]; subst.
  - simpl in Hlt. lia.
  - unfold token_lt in Htok. simpl in Htok. discriminate.
Qed.

End ChecksumFacts.

(** ** find_bursts.py *)

Module BurstFacts.
Import FindBursts.

Lemma getitem_nth l k :
  (k < length l)%nat -> getitem l k = Ok (nth k l 0%float).
Proof.
  intros Hk. unfold getitem.
  destruct (nth_error l k) as [x|] eqn:E.
  - now rewrite (nth_error_nth _ _ _ E).
  - apply nth_error_None in E. lia.
Qed.

Lemma guard_true (i n : nat) (k : Z) :
  (Z.of_nat i + k < Z.of_nat n)%Z ->
  (Z.of_nat i <? Z.of_nat n - k)%Z = true.
Proof. intros H. apply Z.ltb_lt. lia. Qed.

Lemma guard_false (i n : nat) (k : Z) :
  ~ (Z.of_nat i + k < Z.of_nat n)%Z ->
  (Z.of_nat i <? Z.of_nat n - k)%Z = false.
Proof. intros H. apply Z.ltb_ge. lia. Qed.

(** One turn of the inner loop. *)
Lemma extend_step fuel l e :
  (e + 1 < length l)%nat ->
  extend (S fuel) l e =
  if (gap_after l e <? 0.1)%float then extend fuel l (e + 1) else Ok e.
Proof.
  intros He. simpl. rewrite guard_true by lia.
  rewrite !getitem_nth by lia. reflexivity.
Qed.

Lemma extend_stop fuel l e :
  ~ (e + 1 < length l)%nat -> extend (S fuel) l e = Ok e.
Proof. intros He. simpl. now rewrite guard_false by lia. Qed.

(** The inner loop ends, inside the list and not before where it began. *)
Lemma extend_ok l : forall fuel e,
  (e < length l)%nat -> (length l - 1 - e < fuel)%nat ->
  exists e', extend fuel l e = Ok e' /\ (e <= e' < length l)%nat.
Proof.
  induction fuel as [|fuel IH]; intros e He Hfuel; [lia|].
  destruct (Nat.lt_ge_cases (e + 1) (length l)) as [Hlt|Hge].
  - rewrite extend_step by assumption.
    destruct (gap_after l e <? 0.1)%float.
    + destruct (IH (e + 1)%nat) as (e' & -> & Hb); [lia|lia|].
      exists e'. split; [reflexivity | lia].
    + exists e. split; [reflexivity | lia].
  - rewrite extend_stop by lia. exists e. split; [reflexivity | lia].
Qed.

Lemma scan_step fuel l i st :
  (i + 10 < length l)%nat ->
  scan (S fuel) l i st =
  if (window_span l i <? 5.0)%float then
    match extend (length l) l (i + 9) with
    | Ok burst_end => after_extend fuel l i st burst_end
    | IndexError => IndexError
    | OutOfFuel => OutOfFuel
    end
  else scan fuel l (i + 1) (enter i st).
Proof.
  intros Hi. cbn [scan]. rewrite guard_true by lia.
  rewrite !getitem_nth by lia. cbn [bind]. fold (window_span l i).
  destruct (window_span l i <? 5.0)%float; [|reflexivity].
  destruct (extend_ok l (length l) (i + 9)) as (e & He & Hb); [lia|lia|].
  rewrite He. cbn [bind]. rewrite !getitem_nth by lia. reflexivity.
Qed.

Lemma scan_exit fuel l i st :
  ~ (i + 10 < length l)%nat -> scan (S fuel) l i st = Ok st.
Proof. intros Hi. cbn [scan]. now rewrite guard_false by lia. Qed.

(** *** The two comparisons, through the IEEE 754 specification *)

Lemma Prim2SF_five : Prim2SF 5.0 = sf_five.
Proof. vm_compute. reflexivity. Qed.

Lemma Prim2SF_tenth : Prim2SF 0.1 = sf_tenth.
Proof. vm_compute. reflexivity. Qed.

(** A gap above five seconds is not below a tenth of a second. *)
Lemma sparse_gap_not_small (g : float) :
  (5.0 <? g)%float = true -> (g <? 0.1)%float = false.
Proof.
  rewrite !FloatAxioms.ltb_spec, Prim2SF_five, Prim2SF_tenth.
  unfold sf_five, sf_tenth.
  destruct (Prim2SF g) as [s|s| |s m e]; unfold SFltb, SFcompare.
  1-3: try destruct s; intros H; try discriminate H; reflexivity.
  destruct s; [discriminate|].
  destruct (Z.compare_spec (-50) e) as [E|L|G];
    destruct (Z.compare_spec e (-56)) as [E'|L'|G'];
    try (exfalso; lia); try reflexivity; discriminate.
Qed.

(** Unless the span is NaN, [5.0 <= span] is the negation of
    [span < 5.0]. *)
Lemma five_le_iff_not_lt (x : float) :
  is_nan x = false -> (5.0 <=? x)%float = negb (x <? 5.0)%float.
Proof.
  unfold is_nan.
  rewrite FloatAxioms.eqb_spec, FloatAxioms.leb_spec, FloatAxioms.ltb_spec,
    Prim2SF_five.
  unfold sf_five.
  destruct (Prim2SF x) as [s|s| |s m e];
    unfold SFeqb, SFleb, SFltb, SFcompare.
  - reflexivity.
  - destruct s; reflexivity.
  - discriminate.
  - intros _. destruct s; [reflexivity|].
    rewrite (Z.compare_antisym (-50) e).
    destruct (-50 ?= e)%Z; try reflexivity. cbn [CompOpp].
    pose proof (Pos.compare_cont_antisym m 5629499534213120 Eq) as H.
    cbn [CompOpp] in H. rewrite <- H.
    destruct (PosDef.Pos.compare_cont Eq m 5629499534213120); reflexivity.
Qed.

(** *** Termination and where the scan looks *)

Lemma scan_inv_enter l i st :
  (i + 10 < length l)%nat -> scan_inv l st -> scan_inv l (enter i st).
Proof.
  intros Hi [Hv Hb]. split; simpl; auto.
  apply Forall_app. split; auto.
Qed.

Lemma scan_runs l : forall fuel i st,
  (length l - i < fuel)%nat -> scan_inv l st ->
  exists st', scan fuel l i st = Ok st' /\ scan_inv l st'.
Proof.
  induction fuel as [|fuel IH]; intros i st Hfuel Hinv; [lia|].
  destruct (Nat.lt_ge_cases (i + 10) (length l)) as [Hi|Hi].
  - rewrite scan_step by assumption.
    pose proof (scan_inv_enter l i st Hi Hinv) as Hinv'.
    destruct (window_span l i <? 5.0)%float; [|apply IH; [lia|assumption]].
    destruct (extend_ok l (length l) (i + 9)) as (e & -> & He); [lia|lia|].
    unfold after_extend. cbv zeta.
    destruct (Z.of_nat e - Z.of_nat i + 1 >? 30)%Z eqn:Hcount;
      [|apply IH; [lia|assumption]].
    apply IH; [lia|]. destruct Hinv' as [Hv Hb]. split; simpl; auto.
    apply Forall_app. split; auto. constructor; [|constructor].
    exists i, e. simpl. repeat split; try lia; auto.
  - rewrite scan_exit by lia. eauto.
Qed.

Lemma find_bursts_runs l :
  exists st, find_bursts l = Ok st /\ scan_inv l st.
Proof.
  apply scan_runs; [lia|]. split; constructor.
Qed.

(** C10: the scan always ends; every cursor at which it tested a window is
    below [N - 10], so the window anchored at [N - 10] is never tested; and
    every burst it emits starts at such a cursor and counts more than thirty
    flushes, so none lies within the last ten. *)
Theorem scan_boundary (flushes : list float) :
  exists st, find_bursts flushes = Ok st /\
    Forall (fun i => (Z.of_nat i < Z.of_nat (length flushes) - 10)%Z)
           (visited st) /\
    ~ In (length flushes - 10)%nat (visited st) /\
    Forall (burst_within flushes) (bursts st).
Proof.
  destruct (find_bursts_runs flushes) as (st & Hst & Hv & Hb).
  exists st. split; [assumption|]. split; [|split; [|assumption]].
  - revert Hv. apply Forall_impl. intros i Hi. lia.
  - intros Hin. rewrite Forall_forall in Hv. apply Hv in Hin. lia.
Qed.

(** *** No burst where the flushes are sparse *)

Lemma sparse_from_gap k l e :
  sparse_from k l = true -> (k <= e)%nat -> (e + 1 < length l)%nat ->
  (gap_after l e <? 0.1)%float = false.
Proof.
  unfold sparse_from. rewrite forallb_forall. intros H Hk He.
  apply sparse_gap_not_small. apply H. apply in_seq. lia.
Qed.

Lemma extend_halts fuel l e :
  (0 < fuel)%nat -> (e + 1 < length l)%nat ->
  (gap_after l e <? 0.1)%float = false -> extend fuel l e = Ok e.
Proof.
  intros Hfuel He Hgap. destruct fuel as [|fuel]; [lia|].
  now rewrite extend_step, Hgap by assumption.
Qed.

Lemma scan_sparse l :
  (forall e, (9 <= e)%nat -> (e + 1 < length l)%nat ->
             (gap_after l e <? 0.1)%float = false) ->
  forall fuel i st, (length l - i < fuel)%nat ->
  exists st', scan fuel l i st = Ok st' /\
    bursts st' = bursts st /\ printed st' = printed st.
Proof.
  intros Hgap. induction fuel as [|fuel IH]; intros i st Hfuel; [lia|].
  destruct (Nat.lt_ge_cases (i + 10) (length l)) as [Hi|Hi].
  - rewrite scan_step by assumption.
    assert (Hnext : exists st', scan fuel l (i + 1) (enter i st) = Ok st' /\
              bursts st' = bursts st /\ printed st' = printed st).
    { destruct (IH (i + 1)%nat (enter i st)) as (st' & H & Hb & Hp); [lia|].
      exists st'. auto. }
    destruct (window_span l i <? 5.0)%float; [|exact Hnext].
    rewrite extend_halts by (try apply Hgap; lia).
    unfold after_extend. cbv zeta.
    replace (Z.of_nat (i + 9) - Z.of_nat i + 1)%Z with 10%Z by lia.
    exact Hnext.
  - rewrite scan_exit by lia. eauto.
Qed.

(** C6: when every gap from the ninth on exceeds five seconds (nine flushes,
    however tight, then the ten second gap, then sparse flushes), the scan
    ends without emitting or printing a burst. *)
Theorem no_burst_when_sparse (flushes : list float) :
  sparse_from 8 flushes = true ->
  exists st, find_bursts flushes = Ok st /\ bursts st = [] /\ printed st = [].
Proof.
  intros Hsparse. apply (scan_sparse flushes); [|lia].
  intros e He Hlen. apply (sparse_from_gap 8); [assumption|lia|assumption].
Qed.

Lemma no_burst_when_sparse_witness :
  exists st, find_bursts tight_then_sparse = Ok st /\
             bursts st = [] /\ printed st = [].
Proof. apply no_burst_when_sparse. vm_compute. reflexivity. Defined.

(** *** The scan against the specification's algorithm *)

(** The extension phase is the inner loop, word for word. *)
Lemma extension_eq l fuel e : Spec.extension fuel l e = extend fuel l e.
Proof. reflexivity. Qed.

Lemma scanning_step fuel l i st :
  (i + 10 < length l)%nat ->
  Spec.scanning (S fuel) l i st =
  if (5.0 <=? window_span l i)%float
  then Spec.scanning fuel l (i + 1) (enter i st)
  else
    match extend (length l) l (i + 9) with
    | Ok e =>
        let count := (Z.of_nat e - Z.of_nat i + 1)%Z in
        if (count >? 30)%Z then
          let b := {| burst_first := nth i l 0%float;
                      burst_last := nth e l 0%float;
                      burst_size := count |} in
          Spec.scanning fuel l (e + 1) (emit b (Spec.report b) (enter i st))
        else Spec.scanning fuel l (i + 1) (enter i st)
    | IndexError => IndexError
    | OutOfFuel => OutOfFuel
    end.
Proof.
  intros Hi. cbn [Spec.scanning]. unfold Spec.WINDOW_SIZE.
  change (Z.of_nat 10) with 10%Z. rewrite guard_true by lia.
  replace (i + 10 - 1)%nat with (i + 9)%nat by lia.
  rewrite !getitem_nth by lia. cbn [bind]. fold (window_span l i).
  unfold Spec.DENSE_SPAN_THRESHOLD, Spec.MIN_BURST_COUNT.
  destruct (5.0 <=? window_span l i)%float; [reflexivity|].
  rewrite extension_eq.
  destruct (extend_ok l (length l) (i + 9)) as (e & He & Hb); [lia|lia|].
  rewrite He. cbn [bind]. cbv zeta.
  destruct (Z.of_nat e - Z.of_nat i + 1 >? 30)%Z; [|reflexivity].
  rewrite !getitem_nth by lia. reflexivity.
Qed.

Lemma scanning_exit fuel l i st :
  ~ (i + 10 < length l)%nat -> Spec.scanning (S fuel) l i st = Ok st.
Proof.
  intros Hi. cbn [Spec.scanning]. unfold Spec.WINDOW_SIZE.
  change (Z.of_nat 10) with 10%Z. now rewrite guard_false by lia.
Qed.

Lemma spans_defined_at l i :
  spans_defined l = true -> (i + 10 < length l)%nat ->
  is_nan (window_span l i) = false.
Proof.
  unfold spans_defined. rewrite forallb_forall. intros H Hi.
  apply negb_true_iff. apply H. apply in_seq. lia.
Qed.

Lemma scan_eq_scanning l :
  spans_defined l = true ->
  forall fuel i st, scan fuel l i st = Spec.scanning fuel l i st.
Proof.
  intros Hdef. induction fuel as [|fuel IH]; intros i st; [reflexivity|].
  destruct (Nat.lt_ge_cases (i + 10) (length l)) as [Hi|Hi].
  - rewrite scan_step, scanning_step by assumption.
    rewrite five_le_iff_not_lt by now apply spans_defined_at.
    destruct (window_span l i <? 5.0)%float; simpl negb; [|apply IH].
    destruct (extend (length l) l (i + 9)) as [e| |]; try reflexivity.
    unfold after_extend. cbv zeta.
    destruct (Z.of_nat e - Z.of_nat i + 1 >? 30)%Z; apply IH.
  - now rewrite scan_exit, scanning_exit by lia.
Qed.

(** Chronological or not, a log in which no window has a NaN span is
    scanned as the specification's algorithm scans it: the scan ends, in the
    state that algorithm ends in. *)
Theorem scan_refines_spec_no_nan (flushes : list float) :
  spans_defined flushes = true ->
  exists st, find_bursts flushes = Ok st /\ Spec.detect flushes = Ok st.
Proof.
  intros Hdef. destruct (find_bursts_runs flushes) as (st & Hst & _).
  exists st. split; [assumption|].
  unfold Spec.detect. rewrite <- scan_eq_scanning by assumption. exact Hst.
Qed.

Lemma scan_refines_spec_no_nan_witness :
  exists st, find_bursts backwards35 = Ok st /\
             Spec.detect backwards35 = Ok st.
Proof. apply scan_refines_spec_no_nan. vm_compute. reflexivity. Defined.

(** Out of chronological order a span can be NaN, and there the two part:
    the scan rejects the window ([nan < 5.0] is false) while the test
    [span >= 5.0] does not; the scan then finds the burst one flush later. *)
Lemma scan_differs_on_nan_span :
  ordered nan_span_log = false /\
  find_bursts nan_span_log =
    Ok {| bursts := [{| burst_first := 0; burst_last := 0.34;
                        burst_size := 35 |}];
          printed := [{| report_start := 0; report_duration := 340;
                         report_count := 35 |}];
          visited := [0; 1]%nat |} /\
  Spec.detect nan_span_log =
    Ok {| bursts := [{| burst_first := infinity; burst_last := 0.34;
                        burst_size := 36 |}];
          printed := [{| report_start := infinity;
                         report_duration := neg_infinity;
                         report_count := 36 |}];
          visited := [0]%nat |}.
Proof.
  split; [vm_compute; reflexivity|]. split; vm_compute; reflexivity.
Qed.

(** C4: on the 35 timestamps 0.00, 0.01, ..., 0.34 the scan tests one
    window, emits one burst from 0 to 0.34 of 35 flushes, and prints a
    duration that its format shows as 340. *)
Theorem dense35_one_burst :
  length dense35 = 35%nat /\
  find_bursts dense35 =
    Ok {| bursts := [{| burst_first := 0; burst_last := 0.34;
                        burst_size := 35 |}];
          printed := [{| report_start := 0; report_duration := 340;
                         report_count := 35 |}];
          visited := [0%nat] |} /\
  format_0f ((0.34 - 0) * 1000) = Some 340%Z.
Proof.
  split; [reflexivity|]. split; vm_compute; reflexivity.
Qed.

End BurstFacts.

(** * Further properties *)

(** ** analyze_checksums.py: extraction *)

Module ChecksumMore.
Import AnalyzeChecksums ChecksumFacts.
Open Scope string_scope.
Open Scope list_scope.
Open Scope Z_scope.

Lemma reads_parse_line st line :
  reads (parse_line st line) = reads st ++ logged_reads [line].
Proof.
  unfold parse_line, logged_reads. simpl.
  destruct (is_comment line); simpl; [now rewrite app_nil_r|].
  destruct (unmap_match line) as [[[t res] ck]|];
    destruct (read_match line) as [[[t' res'] ck']|];
    destruct (copy_match line) as [[[t'' src] dst]|]; simpl;
    now rewrite ?app_nil_r.
Qed.

Lemma reads_fold lines : forall st,
  reads (fold_left parse_line lines st) = reads st ++ logged_reads lines.
Proof.
  induction lines as [|line lines IH]; intros st; simpl fold_left.
  - simpl. now rewrite app_nil_r.
  - rewrite IH, reads_parse_line, <- app_assoc. f_equal.
    unfold logged_reads. simpl. now rewrite app_nil_r.
Qed.

(** The reads are kept in the order of the trace, none dropped, none
    reordered by timestamp. *)
Theorem reads_in_trace_order lines :
  reads (parse_trace lines) = logged_reads lines.
Proof. unfold parse_trace. now rewrite reads_fold. Qed.

Lemma parse_comment st line :
  is_comment line = true -> parse_line st line = st.
Proof. intros H. unfold parse_line. now rewrite H. Qed.

(** A comment line records nothing, whatever patterns it contains: dropping
    the comment lines leaves the parsed state unchanged. *)
Theorem comments_are_inert lines :
  parse_trace (filter (fun line => negb (is_comment line)) lines)
  = parse_trace lines.
Proof.
  unfold parse_trace. generalize empty_trace.
  induction lines as [|line lines IH]; intros st; simpl; [reflexivity|].
  destruct (is_comment line) eqn:Hc; simpl.
  - rewrite parse_comment by assumption. apply IH.
  - apply IH.
Qed.

Lemma last_write_fold ws res : forall acc,
  fold_left (fun acc w => if String.eqb (fst w) res then Some (snd w) else acc)
            ws acc
  = match last_write ws res with Some w => Some w | None => acc end.
Proof.
  unfold last_write. induction ws as [|w ws IH]; intros acc; simpl; auto.
  rewrite IH, (IH (if String.eqb (fst w) res then Some (snd w) else None)).
  destruct (fold_left _ ws None); auto.
  destruct (String.eqb (fst w) res); auto.
Qed.

Lemma writes_fold lines res : forall st,
  Dict.get (writes (fold_left parse_line lines st)) res =
  match last_write (logged_writes lines) res with
  | Some w => Some w
  | None => Dict.get (writes st) res
  end.
Proof.
  induction lines as [|line lines IH]; intros st; simpl fold_left; auto.
  rewrite IH. unfold logged_writes. simpl flat_map. fold (logged_writes lines).
  unfold last_write at 2. rewrite fold_left_app, last_write_fold.
  destruct (last_write (logged_writes lines) res) as [w|]; auto.
  rewrite writes_parse_line.
  destruct (is_comment line); simpl; auto.
  destruct (unmap_match line) as [[[t r] ck]|]; simpl; auto.
  destruct (String.eqb_spec r res) as [->|Hne].
  - apply DictFacts.get_set_same.
  - now apply DictFacts.get_set_other.
Qed.

(** Looking a resource up after the whole trace is parsed gives the write
    recorded last for it, and nothing when no line wrote to it. *)
Theorem writes_last_wins lines res :
  Dict.get (writes (parse_trace lines)) res
  = last_write (logged_writes lines) res.
Proof.
  unfold parse_trace. rewrite writes_fold. simpl.
  now destruct (last_write (logged_writes lines) res).
Qed.

(** ** analyze_checksums.py: resolution and verification *)

(** Among the qualifying copies of greatest timestamp the search keeps the
    one logged first: every qualifying copy logged before the result is
    strictly earlier in time, every one logged after is no later. *)
Theorem find_recent_copy_first_latest copies read_time read_res c :
  find_recent_copy copies read_time read_res = Some c ->
  first_latest read_time read_res copies c.
Proof.
  intros H.
  pose proof (first_latest_fold read_time read_res copies [] None) as Hf.
  simpl in Hf. fold (find_recent_copy copies read_time read_res) in Hf.
  rewrite H in Hf. apply Hf. intros c' [].
Qed.

Lemma find_recent_copy_first_latest_witness :
  first_latest 10 "0xd"
    [(9, "0xa", "0xd"); (9, "0xb", "0xd"); (10, "0xc", "0xd")]
    (9, "0xa", "0xd").
Proof. apply find_recent_copy_first_latest. reflexivity. Defined.

Lemma printed_fold writes copies rs : forall acc,
  let acc' := fold_left (verify_read writes copies) rs acc in
  matches acc' - matches acc =
    Z.of_nat (length (filter is_match_line (printed acc')))
    - Z.of_nat (length (filter is_match_line (printed acc))) /\
  mismatches acc' - mismatches acc =
    Z.of_nat (length (filter (fun x => negb (is_match_line x)) (printed acc')))
    - Z.of_nat (length (filter (fun x => negb (is_match_line x))
                               (printed acc))).
Proof.
  induction rs as [|[[rt rr] rc] rs IH]; intros acc; cbv zeta.
  - simpl. lia.
  - cbn [fold_left].
    specialize (IH (verify_read writes copies acc (rt, rr, rc))).
    cbv zeta in IH.
    pose proof (verify_read_cases writes copies acc rt rr rc) as H.
    cbv zeta in H. unfold write_entry in *.
    destruct (find_recent_copy copies rt rr) as [[[ct src] dst]|].
    + destruct (Dict.get writes src) as [[wt wc]|].
      * destruct H as [_ H].
        destruct (String.eqb wc rc); rewrite H in IH |- *; simpl in IH;
          rewrite !filter_app, !length_app in IH; simpl in IH; lia.
      * destruct H as [_ H]. rewrite H in *. exact IH.
    + destruct H as [_ H]. rewrite H in *. exact IH.
Qed.

(** The report agrees with the counters: as many MATCH lines as [matches],
    as many MISMATCH lines as [mismatches], and no other line. *)
Theorem printed_lines_match_counters (st : trace_state) :
  let t := verify_reads st in
  matches t = Z.of_nat (length (filter is_match_line (printed t))) /\
  mismatches t =
    Z.of_nat (length (filter (fun x => negb (is_match_line x)) (printed t))) /\
  matches t + mismatches t = Z.of_nat (length (printed t)).
Proof.
  intros t.
  pose proof (printed_fold (writes st) (copies st) (reads st) tally0) as H.
  cbv zeta in H. fold (verify_reads st) in H. fold t in H. simpl in H.
  destruct H as [Hm Hmm]. split; [lia|]. split; [lia|].
  pose proof (filter_length is_match_line (printed t)). lia.
Qed.

Lemma get_retime f ws k :
  Dict.get (retime f ws) k =
  option_map (fun w => (f k (fst w), snd w)) (Dict.get ws k).
Proof.
  induction ws as [|[k' [t c]] ws IH]; simpl; auto.
  destruct (String.eqb_spec k' k) as [->|]; simpl; auto.
Qed.

Lemma verify_read_retime f ws copies acc r :
  verify_read (retime f ws) copies acc r = verify_read ws copies acc r.
Proof.
  destruct r as [[rt rr] rc]. unfold verify_read.
  destruct (find_recent_copy copies rt rr) as [[[ct src] dst]|]; auto.
  rewrite get_retime. unfold write_entry in *.
  destruct (Dict.get ws src) as [[wt wc]|]; reflexivity.
Qed.

(** The timestamps of the writes are never consulted: with any other
    timestamps in [writes], every read is classified the same and the same
    lines are printed.  A write logged after a read explains it as well as
    one logged before. *)
Theorem verification_ignores_write_times f (st : trace_state) :
  verify_reads {| writes := retime f (writes st);
                  reads := reads st; copies := copies st |}
  = verify_reads st.
Proof.
  unfold verify_reads. simpl. generalize tally0.
  induction (reads st) as [|r rs IH]; intros acc; simpl; auto.
  now rewrite verify_read_retime, IH.
Qed.

(** ** analyze_checksums.py: the frequency table, continued *)

Lemma fold_add_acc l : forall a, fold_left Z.add l a = a + fold_left Z.add l 0.
Proof.
  induction l as [|x l IH]; intros a; simpl; [lia|].
  rewrite IH, (IH x). lia.
Qed.

Lemma sum_cons x l : sum (x :: l) = x + sum l.
Proof. unfold sum. simpl. now rewrite fold_add_acc. Qed.

Lemma sum_values_set (d : Dict.t Z) k v :
  sum (map snd (Dict.set d k v)) =
  sum (map snd d) - or_zero (Dict.get d k) + v.
Proof.
  induction d as [|[k' v'] d IH]; simpl.
  - rewrite sum_cons. unfold sum. simpl. lia.
  - destruct (String.eqb k' k); simpl; rewrite !sum_cons.
    + lia.
    + rewrite IH. lia.
Qed.

Lemma count_fold_get c rs : forall d : Dict.t Z,
  Dict.get (fold_left count_checksum rs d) c =
  let n := count_occ String.string_dec (map snd rs) c in
  if (n =? 0)%nat then Dict.get d c
  else Some (or_zero (Dict.get d c) + Z.of_nat n).
Proof.
  induction rs as [|[[t res] k] rs IH]; intros d; cbv zeta; simpl map.
  - reflexivity.
  - cbn [fold_left]. rewrite IH. cbv zeta. unfold count_checksum.
    fold (or_zero (Dict.get d k)).
    destruct (String.string_dec k c) as [->|Hne].
    + rewrite count_occ_cons_eq by reflexivity.
      rewrite DictFacts.get_set_same. simpl or_zero.
      destruct (count_occ String.string_dec (map snd rs) c) as [|n];
        simpl Nat.eqb; cbv iota; f_equal; lia.
    + rewrite count_occ_cons_neq by assumption.
      now rewrite DictFacts.get_set_other by assumption.
Qed.

Lemma count_fold_sum rs : forall d : Dict.t Z,
  sum (map snd (fold_left count_checksum rs d)) =
  sum (map snd d) + Z.of_nat (length rs).
Proof.
  induction rs as [|[[t res] k] rs IH]; intros d.
  - simpl. lia.
  - cbn [fold_left length]. rewrite IH. unfold count_checksum.
    fold (or_zero (Dict.get d k)). rewrite sum_values_set. lia.
Qed.

(** Each count in the table is the number of reads carrying the token; a
    token that was never read has no entry; the counts add up to the number
    of reads. *)
Theorem checksum_counts_count (rs : list read_event) :
  (forall c,
     Dict.get (checksum_counts rs) c =
     match count_occ String.string_dec (map snd rs) c with
     | O => None
     | S n => Some (Z.of_nat (S n))
     end) /\
  sum (map snd (checksum_counts rs)) = Z.of_nat (length rs).
Proof.
  split.
  - intros c. unfold checksum_counts. rewrite count_fold_get. cbv zeta.
    now destruct (count_occ String.string_dec (map snd rs) c).
  - unfold checksum_counts. now rewrite count_fold_sum.
Qed.

Lemma NoDup_count_fold rs : forall d : Dict.t Z,
  NoDup (Dict.keys d) -> NoDup (Dict.keys (fold_left count_checksum rs d)).
Proof.
  induction rs as [|[[t res] k] rs IH]; intros d Hd; simpl; auto.
  apply IH. now apply DictFacts.NoDup_keys_set.
Qed.

(** The table has one entry per distinct token: the number printed as
    "Total unique checksums" is the number of different checksums read. *)
Theorem checksum_counts_distinct (rs : list read_event) :
  NoDup (Dict.keys (checksum_counts rs)) /\
  length (checksum_counts rs) =
  length (nodup String.string_dec (map snd rs)).
Proof.
  assert (Hnd : NoDup (Dict.keys (checksum_counts rs)))
    by (apply NoDup_count_fold; constructor).
  split; [assumption|].
  rewrite <- (length_map fst (checksum_counts rs)).
  apply Permutation_length. apply NoDup_Permutation.
  - exact Hnd.
  - apply NoDup_nodup.
  - intros k. rewrite nodup_In. apply checksum_counts_keys.
Qed.

Lemma insert_by_key_perm {A : Type} (key : A -> Z) x l :
  Permutation (insert_by_key key x l) (x :: l).
Proof.
  induction l as [|y l IH]; simpl; auto.
  destruct (key x <=? key y); auto.
  rewrite IH. apply perm_swap.
Qed.

Lemma sorted_by_key_perm {A : Type} (key : A -> Z) l :
  Permutation (sorted_by_key key l) l.
Proof.
  induction l as [|x l IH]; simpl; auto.
  rewrite insert_by_key_perm. now constructor.
Qed.

Lemma StronglySorted_any {A : Type} (l : list A) :
  StronglySorted (fun _ _ => True) l.
Proof.
  induction l; constructor; auto. apply Forall_forall. auto.
Qed.

Lemma sorted_by_count (l : list (string * Z)) :
  StronglySorted (fun a b => snd b <= snd a)
                 (sorted_by_key (fun x => - snd x) l).
Proof.
  eapply StronglySorted_impl;
    [|apply (sorted_by_key_sorted (fun x : string * Z => - snd x)
               (fun _ _ => True)); apply StronglySorted_any].
  intros a b [H|[H _]]; simpl in H; lia.
Qed.

Lemma StronglySorted_app_inv {A : Type} (R : A -> A -> Prop) l1 : forall l2,
  StronglySorted R (l1 ++ l2) ->
  forall a b, In a l1 -> In b l2 -> R a b.
Proof.
  induction l1 as [|x l1 IH]; intros l2 Hs a b Ha Hb; [destruct Ha|].
  simpl in Hs. inversion Hs as [|? ? Hs' Hall]; subst.
  destruct Ha as [<-|Ha].
  - rewrite Forall_forall in Hall. apply Hall. apply in_or_app. now right.
  - now apply (IH l2).
Qed.

(** The table shown holds ten entries, or all of them when there are fewer;
    each is an entry of [checksum_counts]; and no entry left out was read
    more often than one that is shown. *)
Theorem top10_selects (rs : list read_event) :
  length (top10 rs) = Nat.min 10 (length (checksum_counts rs)) /\
  (forall a, In a (top10 rs) -> In a (checksum_counts rs)) /\
  (forall a b, In a (top10 rs) -> In b (checksum_counts rs) ->
               ~ In b (top10 rs) -> snd b <= snd a).
Proof.
  unfold top10.
  set (s := sorted_by_key (fun x : string * Z => - snd x) (checksum_counts rs)).
  assert (Hp : Permutation s (checksum_counts rs))
    by apply sorted_by_key_perm.
  split; [|split].
  - rewrite length_firstn. now rewrite (Permutation_length Hp).
  - intros a Ha. apply (Permutation_in _ Hp).
    rewrite <- (firstn_skipn 10 s). apply in_or_app. now left.
  - intros a b Ha Hb Hnb.
    apply (Permutation_in _ (Permutation_sym Hp)) in Hb.
    rewrite <- (firstn_skipn 10 s) in Hb.
    apply in_app_or in Hb as [Hb|Hb]; [contradiction|].
    pose proof (sorted_by_count (checksum_counts rs)) as Hs. fold s in Hs.
    rewrite <- (firstn_skipn 10 s) in Hs.
    exact (StronglySorted_app_inv _ _ _ Hs a b Ha Hb).
Qed.

Lemma top10_selects_witness :
  snd ("0xb", 1) <= snd ("0x1", 1).
Proof.
  refine (proj2 (proj2 (top10_selects eleven_reads))
            ("0x1", 1) ("0xb", 1) _ _ _).
  - vm_compute. tauto.
  - vm_compute. tauto.
  - vm_compute. intros H.
    repeat (destruct H as [H|H]; [discriminate H|]). exact H.
Defined.

(** ** analyze_checksums.py: timing, continued *)

Lemma read_intervals_cons a b rs :
  read_intervals (a :: b :: rs) =
  (fst (fst b) - fst (fst a)) :: read_intervals (b :: rs).
Proof.
  unfold read_intervals. cbn [length].
  replace (S (S (length rs)) - 1)%nat with (S (length rs)) by lia.
  replace (S (length rs) - 1)%nat with (length rs) by lia.
  cbn [seq map]. f_equal.
  rewrite <- seq_shift, map_map. apply map_ext_in.
  intros i Hi. apply in_seq in Hi. destruct i as [|j]; [lia|].
  unfold read_time_at. cbn [nth Nat.sub].
  now rewrite Nat.sub_0_r.
Qed.

Lemma sum_read_intervals rs : forall a,
  sum (read_intervals (a :: rs)) =
  read_time_at (a :: rs) (length rs) - fst (fst a).
Proof.
  induction rs as [|b rs IH]; intros a.
  - unfold read_time_at, read_intervals, sum. simpl. lia.
  - rewrite read_intervals_cons, sum_cons, IH.
    unfold read_time_at. cbn [length nth]. lia.
Qed.

(** The intervals add up to the timestamp of the last read minus that of
    the first: what lies between does not matter, in whatever order it is. *)
Theorem read_intervals_telescope (rs : list read_event) :
  rs <> [] ->
  sum (read_intervals rs) =
  read_time_at rs (length rs - 1) - read_time_at rs 0.
Proof.
  destruct rs as [|a rs]; [congruence|]. intros _.
  rewrite sum_read_intervals. cbn [length].
  now replace (S (length rs) - 1)%nat with (length rs) by lia.
Qed.

Lemma read_intervals_telescope_witness :
  sum (read_intervals [(700, "0xd", "0x1"); (100, "0xd", "0x2");
                       (300, "0xd", "0x3")]) = 300 - 700.
Proof.
  apply (read_intervals_telescope
           [(700, "0xd", "0x1"); (100, "0xd", "0x2"); (300, "0xd", "0x3")]).
  discriminate.
Defined.






End ChecksumMore.

(** ** find_bursts.py, continued *)

Module BurstMore.
Import FindBursts BurstFacts.

Lemma extend_run l : forall fuel e,
  (e < length l)%nat -> (length l - 1 - e < fuel)%nat ->
  exists e', extend fuel l e = Ok e' /\ (e <= e' < length l)%nat /\
             dense_run l e e' /\ run_ends l e'.
Proof.
  induction fuel as [|fuel IH]; intros e He Hfuel; [lia|].
  destruct (Nat.lt_ge_cases (e + 1) (length l)) as [Hlt|Hge].
  - rewrite extend_step by assumption.
    destruct (gap_after l e <? 0.1)%float eqn:Hgap.
    + destruct (IH (e + 1)%nat) as (e' & -> & Hb & Hd & Hs); [lia|lia|].
      exists e'. split; [reflexivity|]. split; [lia|]. split; [|assumption].
      intros k Hk. destruct (Nat.eq_dec k e) as [->|Hne]; [assumption|].
      apply Hd. lia.
    + exists e. split; [reflexivity|]. split; [lia|]. split.
      * intros k Hk. lia.
      * intros _. assumption.
  - rewrite extend_stop by lia. exists e. split; [reflexivity|].
    split; [lia|]. split.
    + intros k Hk. lia.
    + intros H. lia.
Qed.

(** The inner loop returns the end of the longest run of gaps below 0.1 s
    that starts where it was called: every gap before the result is below
    the threshold, and the result is the last flush or is followed by a gap
    that is not. *)
Theorem extend_finds_run (flushes : list float) (burst_end : nat) :
  (burst_end < length flushes)%nat ->
  exists e, extend (length flushes) flushes burst_end = Ok e /\
            (burst_end <= e < length flushes)%nat /\
            dense_run flushes burst_end e /\ run_ends flushes e.
Proof. intros H. apply extend_run; lia. Qed.

Lemma extend_finds_run_witness :
  exists e, extend (length dense35) dense35 9 = Ok e /\
            (9 <= e < length dense35)%nat /\
            dense_run dense35 9 e /\ run_ends dense35 e.
Proof. apply extend_finds_run. simpl. lia. Defined.

Lemma scan_trace_enter l i i' st ranges :
  (i < i')%nat -> scan_trace l i st ranges ->
  scan_trace l i' (enter i st) ranges.
Proof.
  intros Hi (Hb & Hok & Hs & Hlt & Hn & Hp & Hv & Hvi).
  repeat split; simpl; auto.
  - revert Hlt. apply Forall_impl. intros r Hr. lia.
  - lia.
  - apply ChecksumFacts.StronglySorted_snoc; auto.
  - apply Forall_app. split.
    + revert Hvi. apply Forall_impl. intros v Hv'. lia.
    + constructor; [lia | constructor].
Qed.

Lemma scan_trace_emit l i e st ranges :
  range_ok l (i, e) -> scan_trace l i st ranges ->
  scan_trace l (e + 1)
    (emit (burst_of l (i, e)) (Spec.report (burst_of l (i, e))) (enter i st))
    (ranges ++ [(i, e)]).
Proof.
  intros Hr Hinv.
  assert (Hie : (i < e + 1)%nat) by (destruct Hr as (_ & H & _); simpl in H; lia).
  destruct (scan_trace_enter l i (e + 1) st ranges Hie Hinv)
    as (Hb & Hok & Hs & Hlt & Hn & Hp & Hv & Hvi).
  destruct Hinv as (_ & _ & _ & Hlt0 & Hn0 & _).
  simpl in *. repeat split; simpl; auto.
  - now rewrite map_app, Hb.
  - apply Forall_app. split; auto.
  - apply ChecksumFacts.StronglySorted_snoc; auto.
  - apply Forall_app. split; auto. constructor; [simpl; lia | constructor].
  - rewrite length_app. simpl. destruct Hr as (_ & _ & H & _).
    simpl in H. lia.
  - now rewrite map_app, Hp.
Qed.

Lemma scan_traced l : forall fuel i st ranges,
  (length l - i < fuel)%nat -> scan_trace l i st ranges ->
  exists st' i' ranges',
    scan fuel l i st = Ok st' /\ (i' <= Nat.max i (length l))%nat /\
    scan_trace l i' st' ranges'.
Proof.
  induction fuel as [|fuel IH]; intros i st ranges Hfuel Hinv; [lia|].
  destruct (Nat.lt_ge_cases (i + 10) (length l)) as [Hi|Hi].
  - rewrite scan_step by assumption.
    assert (Hnext : exists st' i' ranges',
              scan fuel l (i + 1) (enter i st) = Ok st' /\
              (i' <= Nat.max i (length l))%nat /\ scan_trace l i' st' ranges').
    { destruct (IH (i + 1)%nat (enter i st) ranges) as (st' & i' & rg & H & Hle & Ht);
        [lia | apply scan_trace_enter; [lia|assumption] |].
      exists st', i', rg. split; [assumption|]. split; [lia|assumption]. }
    destruct (window_span l i <? 5.0)%float eqn:Hw; [|exact Hnext].
    destruct (extend_run l (length l) (i + 9)) as (e & -> & He & Hd & Hs);
      [lia|lia|].
    unfold after_extend. cbv zeta.
    destruct (Z.of_nat e - Z.of_nat i + 1 >? 30)%Z eqn:Hcount; [|exact Hnext].
    apply Z.gtb_lt in Hcount.
    assert (Hr : range_ok l (i, e)) by (repeat split; simpl; auto; lia).
    destruct (IH (e + 1)%nat _ _ ltac:(lia) (scan_trace_emit l i e st ranges Hr Hinv))
      as (st' & i' & rg & H & Hle & Ht).
    exists st', i', rg. split; [exact H|]. split; [lia|assumption].
  - rewrite scan_exit by lia. exists st, i, ranges.
    split; [reflexivity|]. split; [lia|assumption].
Qed.

Lemma find_bursts_traced l :
  exists st i ranges,
    find_bursts l = Ok st /\ (i <= length l)%nat /\ scan_trace l i st ranges.
Proof.
  destruct (scan_traced l (S (length l)) 0 scan0 []) as (st & i & rg & H & Hle & Ht).
  - lia.
  - repeat split; simpl; auto; constructor.
  - exists st, i, rg. split; [exact H|]. split; [lia|assumption].
Qed.

(** Every burst the scan emits is a real one, and they do not overlap: the
    bursts are the records of positions [(i, e)], each with a window under
    5 s at [i], every gap from [i + 9] to [e] under 0.1 s, no further flush
    within 0.1 s of [e], and more than thirty flushes; each starts after
    the one before it ends. *)
Theorem bursts_are_dense_runs (flushes : list float) :
  exists st ranges,
    find_bursts flushes = Ok st /\
    bursts st = map (burst_of flushes) ranges /\
    Forall (range_ok flushes) ranges /\
    StronglySorted apart ranges.
Proof.
  destruct (find_bursts_traced flushes)
    as (st & i & rg & H & _ & Hb & Hok & Hs & _).
  exists st, rg. auto.
Qed.

(** There is at most one burst per 31 flushes. *)
Theorem bursts_bounded (flushes : list float) :
  exists st, find_bursts flushes = Ok st /\
             (31 * length (bursts st) <= length flushes)%nat.
Proof.
  destruct (find_bursts_traced flushes)
    as (st & i & rg & H & Hle & Hb & _ & _ & _ & Hn & _).
  exists st. split; [exact H|]. rewrite Hb, length_map. lia.
Qed.

(** A log of thirty flushes or fewer has no burst, however dense it is. *)
Theorem no_burst_in_short_log (flushes : list float) :
  (length flushes <= 30)%nat ->
  exists st, find_bursts flushes = Ok st /\ bursts st = [] /\ printed st = [].
Proof.
  intros Hlen.
  destruct (find_bursts_traced flushes)
    as (st & i & rg & H & Hle & Hb & _ & _ & _ & Hn & Hp & _).
  exists st. split; [exact H|].
  destruct rg as [|r rg]; [|simpl in Hn; lia].
  rewrite Hp, Hb. auto.
Qed.

Lemma no_burst_in_short_log_witness :
  exists st, find_bursts (firstn 30 dense35) = Ok st /\
             bursts st = [] /\ printed st = [].
Proof. apply no_burst_in_short_log. simpl. lia. Defined.

(** The cursor only moves forward: the windows are tested at strictly
    increasing positions, so none is tested twice. *)
Theorem cursor_moves_forward (flushes : list float) :
  exists st, find_bursts flushes = Ok st /\
             StronglySorted lt (visited st) /\ NoDup (visited st).
Proof.
  destruct (find_bursts_traced flushes)
    as (st & i & rg & H & _ & _ & _ & _ & _ & _ & _ & Hv & _).
  exists st. split; [exact H|]. split; [exact Hv|].
  clear H. induction Hv as [|v vs Hs IH Hall]; constructor; auto.
  intros Hin. rewrite Forall_forall in Hall. apply Hall in Hin. lia.
Qed.

(** One block is printed per burst, in order, with the burst's start and
    count and the duration [(end - start) * 1000] of its two timestamps. *)
Theorem printed_reports_bursts (flushes : list float) :
  exists st, find_bursts flushes = Ok st /\
             printed st = map Spec.report (bursts st).
Proof.
  destruct (find_bursts_traced flushes)
    as (st & i & rg & H & _ & _ & _ & _ & _ & _ & Hp & _).
  exists st. auto.
Qed.

(** With ten flushes or fewer the loop body never runs: no window is
    tested, nothing is emitted. *)
Theorem short_log_not_scanned (flushes : list float) :
  (length flushes <= 10)%nat -> find_bursts flushes = Ok scan0.
Proof. intros H. unfold find_bursts. apply scan_exit. lia. Qed.

Lemma short_log_not_scanned_witness :
  find_bursts (firstn 10 dense35) = Ok scan0.
Proof. apply short_log_not_scanned. simpl. lia. Defined.

(** A log that is dense throughout is one burst: when it has more than
    thirty flushes, its first ten span less than 5 s and every gap from the
    tenth flush on is under 0.1 s, the scan tests the first window only and
    emits the whole log as a single burst. *)
Theorem dense_log_one_burst (flushes : list float) :
  (30 < length flushes)%nat ->
  (window_span flushes 0 <? 5.0)%float = true ->
  dense_run flushes 9 (length flushes - 1) ->
  find_bursts flushes =
    Ok {| bursts := [burst_of flushes (0, length flushes - 1)%nat];
          printed := [Spec.report
                        (burst_of flushes (0, length flushes - 1)%nat)];
          visited := [0%nat] |}.
Proof.
  intros Hlen Hw Hd. unfold find_bursts.
  rewrite scan_step, Hw by lia.
  destruct (extend_run flushes (length flushes) (0 + 9))
    as (e & -> & He & _ & Hs); [lia|lia|].
  assert (e = length flushes - 1)%nat as ->.
  { destruct (Nat.lt_ge_cases (e + 1) (length flushes)) as [Hlt|Hge]; [|lia].
    specialize (Hs Hlt). rewrite Hd in Hs by lia. discriminate. }
  unfold after_extend. cbv zeta.
  replace (Z.of_nat (length flushes - 1) - Z.of_nat 0 + 1 >? 30)%Z with true
    by (symmetry; apply Z.gtb_lt; lia).
  destruct (length flushes) as [|n] eqn:Hn; [lia|].
  rewrite scan_exit by (rewrite Hn; lia). reflexivity.
Qed.

Lemma dense_log_one_burst_witness :
  find_bursts dense35 =
    Ok {| bursts := [burst_of dense35 (0, length dense35 - 1)%nat];
          printed := [Spec.report
                        (burst_of dense35 (0, length dense35 - 1)%nat)];
          visited := [0%nat] |}.
Proof.
  apply dense_log_one_burst.
  - simpl. lia.
  - vm_compute. reflexivity.
  - intros k Hk. simpl in Hk.
    do 9 (destruct k as [|k]; [lia|]).
    do 25 (destruct k as [|k]; [vm_compute; reflexivity|]). lia.
Defined.

(** *** Chronological logs

    The difference of two timestamps is NaN only when both are the same
    infinity; in a chronological log the window test and the
    specification's test then lead to the same step. *)

Lemma shr_1_nonneg mrs : (0 <= shr_m mrs)%Z -> (0 <= shr_m (shr_1 mrs))%Z.
Proof.
  destruct mrs as [m r s]. simpl.
  destruct m as [|p|p]; [| |lia]; intros _.
  - simpl. lia.
  - destruct p; simpl; lia.
Qed.

Lemma iter_pos_shr_nonneg p : forall mrs,
  (0 <= shr_m mrs)%Z -> (0 <= shr_m (SpecFloat.iter_pos shr_1 p mrs))%Z.
Proof.
  induction p as [p IH|p IH|]; intros mrs H; simpl.
  - apply IH, IH. now apply shr_1_nonneg.
  - apply IH, IH. assumption.
  - now apply shr_1_nonneg.
Qed.

Lemma shr_nonneg mrs e n :
  (0 <= shr_m mrs)%Z -> (0 <= shr_m (fst (shr mrs e n)))%Z.
Proof.
  intros H. unfold shr. destruct n as [|p|p]; simpl; auto.
  now apply iter_pos_shr_nonneg.
Qed.

Lemma round_nearest_even_nonneg m l :
  (0 <= m)%Z -> (0 <= round_nearest_even m l)%Z.
Proof.
  intros H. unfold round_nearest_even.
  destruct l as [|[| |]]; try lia. destruct (IntDef.Z.even m); lia.
Qed.

Lemma binary_round_aux_not_nan prec emax sx mx ex lx :
  (0 <= mx)%Z -> binary_round_aux prec emax sx mx ex lx <> S754_nan.
Proof.
  intros H. unfold binary_round_aux, shr_fexp.
  pose proof (shr_nonneg (shr_record_of_loc mx lx) ex
                (fexp prec emax (Zdigits2 mx + ex) - ex)) as H1.
  destruct (shr (shr_record_of_loc mx lx) ex _) as [mrs' e'].
  simpl in H1.
  assert (H1' : (0 <= shr_m mrs')%Z).
  { apply H1. destruct lx as [|[| |]]; simpl; assumption. }
  set (m2 := round_nearest_even (shr_m mrs') (loc_of_shr_record mrs')).
  assert (Hm2 : (0 <= m2)%Z) by now apply round_nearest_even_nonneg.
  pose proof (shr_nonneg (shr_record_of_loc m2 loc_Exact) e'
                (fexp prec emax (Zdigits2 m2 + e') - e')) as H2.
  destruct (shr (shr_record_of_loc m2 loc_Exact) e' _) as [mrs'' e''].
  simpl in H2. specialize (H2 Hm2).
  destruct (shr_m mrs'') as [|p|p]; try discriminate; [|lia].
  destruct (e'' <=? emax - prec)%Z; discriminate.
Qed.

Lemma binary_normalize_not_nan prec emax m e szero :
  binary_normalize prec emax m e szero <> S754_nan.
Proof.
  unfold binary_normalize. destruct m as [|p|p]; try discriminate;
    unfold binary_round;
    destruct (shl_align _ _ _) as [mz ez];
    apply binary_round_aux_not_nan; lia.
Qed.

(** A difference is NaN only for an operand that is, or for two infinities of one sign. *)
Lemma SFsub_nan prec emax x y :
  SFsub prec emax x y = S754_nan ->
  x = S754_nan \/ y = S754_nan \/
  exists s, x = S754_infinity s /\ y = S754_infinity s.
Proof.
  destruct x as [sx|sx| |sx mx ex], y as [sy|sy| |sy my ey]; simpl; auto;
    try discriminate.
  - destruct sx, sy; discriminate.
  - destruct sx, sy; try discriminate; intros _; right; right; eauto.
  - intros H. now apply binary_normalize_not_nan in H.
Qed.

Lemma SFcompare_refl x : x <> S754_nan -> SFcompare x x = Some Eq.
Proof.
  destruct x as [s|s| |s m e]; simpl; intros H; try congruence.
  - now destruct s.
  - rewrite Z.compare_refl, Pos.compare_cont_refl. now destruct s.
Qed.

Lemma is_nan_Prim2SF x : is_nan x = true <-> Prim2SF x = S754_nan.
Proof.
  unfold is_nan. rewrite FloatAxioms.eqb_spec. unfold SFeqb. split.
  - intros H. destruct (Prim2SF x) as [s|s| |s m e] eqn:E; auto;
      rewrite SFcompare_refl in H by discriminate; discriminate.
  - intros ->. reflexivity.
Qed.

Lemma nan_compares_false x y :
  is_nan x = true -> (x <? y)%float = false /\ (y <=? x)%float = false.
Proof.
  intros H. apply is_nan_Prim2SF in H.
  rewrite FloatAxioms.ltb_spec, FloatAxioms.leb_spec, H.
  unfold SFltb, SFleb. split; [reflexivity|].
  now destruct (Prim2SF y).
Qed.

Lemma SFleb_not_nan x y :
  SFleb x y = true -> x <> S754_nan /\ y <> S754_nan.
Proof.
  unfold SFleb. intros H. split; intros ->.
  - discriminate.
  - destruct x; discriminate.
Qed.

Lemma SFleb_from_inf y :
  SFleb (S754_infinity false) y = true -> y = S754_infinity false.
Proof.
  unfold SFleb. destruct y as [s|s| |s m e]; simpl; try discriminate.
  now destruct s.
Qed.

(** After an infinite timestamp, the next gap is not below the threshold. *)
Lemma gap_after_inf s b c :
  Prim2SF b = S754_infinity s -> (b <=? c)%float = true ->
  (c - b <? 0.1)%float = false.
Proof.
  intros Hb Hle. rewrite FloatAxioms.leb_spec, Hb in Hle.
  rewrite FloatAxioms.ltb_spec, FloatAxioms.sub_spec, Hb, Prim2SF_tenth.
  unfold sf_tenth, SF64sub. destruct s.
  - destruct (Prim2SF c) as [sc|sc| |sc mc ec]; try reflexivity.
    now destruct sc.
  - apply SFleb_from_inf in Hle. rewrite Hle. reflexivity.
Qed.

Lemma ordered_at l k :
  ordered l = true -> (k + 1 < length l)%nat ->
  (nth k l 0 <=? nth (k + 1) l 0)%float = true.
Proof.
  unfold ordered. rewrite forallb_forall. intros H Hk.
  apply H. apply in_seq. lia.
Qed.

Lemma nan_span_gap l i :
  ordered l = true -> (i + 10 < length l)%nat ->
  is_nan (window_span l i) = true ->
  (gap_after l (i + 9) <? 0.1)%float = false.
Proof.
  intros Hord Hi Hnan. unfold window_span in Hnan.
  apply is_nan_Prim2SF in Hnan.
  rewrite FloatAxioms.sub_spec in Hnan. unfold SF64sub in Hnan.
  pose proof (ordered_at l i Hord ltac:(lia)) as Ha.
  pose proof (ordered_at l (i + 9) Hord ltac:(lia)) as Hb.
  rewrite FloatAxioms.leb_spec in Ha. apply SFleb_not_nan in Ha as [Ha _].
  pose proof Hb as Hb'.
  rewrite FloatAxioms.leb_spec in Hb'. apply SFleb_not_nan in Hb' as [Hb' _].
  apply SFsub_nan in Hnan as [H|[H|(s & Hs & _)]]; try contradiction.
  unfold gap_after. now apply (gap_after_inf s).
Qed.

Lemma scan_eq_scanning_ordered l :
  ordered l = true ->
  forall fuel i st, scan fuel l i st = Spec.scanning fuel l i st.
Proof.
  intros Hord. induction fuel as [|fuel IH]; intros i st; [reflexivity|].
  destruct (Nat.lt_ge_cases (i + 10) (length l)) as [Hi|Hi].
  - rewrite scan_step, scanning_step by assumption.
    destruct (is_nan (window_span l i)) eqn:Hnan.
    + destruct (nan_compares_false (window_span l i) 5.0 Hnan) as [-> ->].
      rewrite extend_halts by (try apply nan_span_gap; auto; lia).
      cbv zeta.
      replace (Z.of_nat (i + 9) - Z.of_nat i + 1)%Z with 10%Z by lia.
      apply IH.
    + rewrite five_le_iff_not_lt by assumption.
      destruct (window_span l i <? 5.0)%float; simpl negb; [|apply IH].
      destruct (extend (length l) l (i + 9)) as [e| |]; try reflexivity.
      unfold after_extend. cbv zeta.
      destruct (Z.of_nat e - Z.of_nat i + 1 >? 30)%Z; apply IH.
  - now rewrite scan_exit, scanning_exit by lia.
Qed.

(** C3: on every log in chronological order, as the detector's input is,
    the scan is the specification's algorithm (reject the window and advance
    by one when the span is >= 5.0; otherwise extend while the next gap is
    below 0.1; emit and jump past the burst exactly when it counts more than
    30 flushes, else advance by one): the scan ends, and ends in the state
    that algorithm ends in, with the same cursors visited, the same bursts
    emitted and the same durations reported.  Timestamps that overflowed to
    infinity are included. *)
Theorem scan_refines_spec_ordered (flushes : list float) :
  ordered flushes = true ->
  exists st, find_bursts flushes = Ok st /\ Spec.detect flushes = Ok st.
Proof.
  intros Hord. destruct (find_bursts_runs flushes) as (st & Hst & _).
  exists st. split; [assumption|].
  unfold Spec.detect. rewrite <- scan_eq_scanning_ordered by assumption.
  exact Hst.
Qed.

Lemma scan_refines_spec_ordered_witness :
  exists st, find_bursts dense_then_inf = Ok st /\
             Spec.detect dense_then_inf = Ok st.
Proof. apply scan_refines_spec_ordered. vm_compute. reflexivity. Defined.

End BurstMore.
